(** * Object lifetime, weak references and thread affinity (ballistica)

    A shallow embedding of [src/ballistica/core/object.cc] and of the
    destructor of [src/ballistica/graphics/mesh/mesh_data.h].

    Pointers are addresses into finite maps ([None] is [nullptr]), the
    process-wide registry [g_app] and the output channels are fields of one
    [World] record, and the C++ functions are computations in a small
    state-and-abort monad [M]. *)

From stdpp Require Import gmap strings list fin_maps sorting pretty.
From Stdlib Require Import ZArith Lia.

Open Scope Z_scope.

(** ** Data model *)

Abbreviation addr := N (only parsing).

(** [ThreadTag], as used by [object.cc]. *)
Inductive ThreadTag :=
  | kInvalid | kMain | kLogic | kAudio | kNetworkWrite | kAssets | kBGDynamics.

(** [Object::ThreadOwnership], as used by [object.cc]. *)
Inductive ThreadOwnership := kClassDefault | kNextReferencing.

Inductive LogLevel := kDebug | kInfo | kWarning | kError | kCritical.

Global Instance ThreadTag_eq_dec : EqDecision ThreadTag.
Proof. solve_decision. Defined.
Global Instance ThreadOwnership_eq_dec : EqDecision ThreadOwnership.
Proof. solve_decision. Defined.
Global Instance LogLevel_eq_dec : EqDecision LogLevel.
Proof. solve_decision. Defined.

(** The calling thread, as the external predicates [InMainThread()],
    [InLogicThread()], ... and [GetCurrentThreadName()] answer for it. *)
Record Thread := {
  InMainThread : bool;
  InLogicThread : bool;
  InAudioThread : bool;
  InNetworkWriteThread : bool;
  InAssetsThread : bool;
  InBGDynamicsThread : bool;
  GetCurrentThreadName : string
}.

(** The fields of an [Object] that [object.cc] reads or writes, and what
    its virtual member functions answer for the dynamic type of the
    instance. [type_name] is what the virtual [GetObjectTypeName()]
    returns. [default_owner_override] is the role the type's own
    [GetDefaultOwnerThread()] returns, [None] for a type that keeps the
    implementation of [Object] (lines 129-131).

    Modelled from the spec: [object.h], which declares
    [GetDefaultOwnerThread()], is not part of these sources; the role of
    the class-default policy is "a fixed role defined by the type", so the
    call on line 183 is dispatched on the type of the instance. *)
Record Object := {
  object_prev_ : option addr;
  object_next_ : option addr;
  object_birth_time_ : Z;
  object_strong_ref_count_ : Z;
  object_weak_refs_ : option addr;
  thread_ownership_ : ThreadOwnership;
  owner_thread_ : ThreadTag;
  thread_checks_enabled_ : bool;
  type_name : string;
  default_owner_override : option ThreadTag
}.

(** A weak-reference node of an object's intrusive weak chain. *)
Record WeakRefBase := {
  obj_ : option addr;
  prev_ : option addr;
  next_ : option addr
}.

(** [Exception(msg)] and [Exception()]. *)
Inductive Exception := MkException (what : option string).

(** Ghost events: lock operations, accesses to registry state (tagged with
    whether [object_list_mutex] was held at that moment), and queries about
    the calling thread or the ownership policy. *)
Inductive Event :=
  | EvLock
  | EvUnlock
  | EvRegistry (held : bool)
  | EvInThread (t : ThreadTag)
  | EvThreadName
  | EvGetThreadOwnership
  | EvGetDefaultOwnerThread.

Record World := {
  object_list_mutex : bool;
  object_list_first : option addr;
  object_count : Z;
  real_time : Z;
  objects : gmap N Object;
  weak_refs : gmap N WeakRefBase;
  log_sink : list (LogLevel * string);
  std_out : list string;
  trace : list Event
}.

(** *** Field updates *)

Definition set_object_prev_ (v : option addr) (o : Object) : Object :=
  {| object_prev_ := v; object_next_ := object_next_ o;
     object_birth_time_ := object_birth_time_ o;
     object_strong_ref_count_ := object_strong_ref_count_ o;
     object_weak_refs_ := object_weak_refs_ o;
     thread_ownership_ := thread_ownership_ o;
     owner_thread_ := owner_thread_ o;
     thread_checks_enabled_ := thread_checks_enabled_ o;
     type_name := type_name o;
     default_owner_override := default_owner_override o |}.

Definition set_object_next_ (v : option addr) (o : Object) : Object :=
  {| object_prev_ := object_prev_ o; object_next_ := v;
     object_birth_time_ := object_birth_time_ o;
     object_strong_ref_count_ := object_strong_ref_count_ o;
     object_weak_refs_ := object_weak_refs_ o;
     thread_ownership_ := thread_ownership_ o;
     owner_thread_ := owner_thread_ o;
     thread_checks_enabled_ := thread_checks_enabled_ o;
     type_name := type_name o;
     default_owner_override := default_owner_override o |}.

Definition set_object_birth_time_ (v : Z) (o : Object) : Object :=
  {| object_prev_ := object_prev_ o; object_next_ := object_next_ o;
     object_birth_time_ := v;
     object_strong_ref_count_ := object_strong_ref_count_ o;
     object_weak_refs_ := object_weak_refs_ o;
     thread_ownership_ := thread_ownership_ o;
     owner_thread_ := owner_thread_ o;
     thread_checks_enabled_ := thread_checks_enabled_ o;
     type_name := type_name o;
     default_owner_override := default_owner_override o |}.

Definition set_object_weak_refs_ (v : option addr) (o : Object) : Object :=
  {| object_prev_ := object_prev_ o; object_next_ := object_next_ o;
     object_birth_time_ := object_birth_time_ o;
     object_strong_ref_count_ := object_strong_ref_count_ o;
     object_weak_refs_ := v;
     thread_ownership_ := thread_ownership_ o;
     owner_thread_ := owner_thread_ o;
     thread_checks_enabled_ := thread_checks_enabled_ o;
     type_name := type_name o;
     default_owner_override := default_owner_override o |}.

Definition set_owner_thread_ (v : ThreadTag) (o : Object) : Object :=
  {| object_prev_ := object_prev_ o; object_next_ := object_next_ o;
     object_birth_time_ := object_birth_time_ o;
     object_strong_ref_count_ := object_strong_ref_count_ o;
     object_weak_refs_ := object_weak_refs_ o;
     thread_ownership_ := thread_ownership_ o;
     owner_thread_ := v;
     thread_checks_enabled_ := thread_checks_enabled_ o;
     type_name := type_name o;
     default_owner_override := default_owner_override o |}.

Definition set_obj_ (v : option addr) (r : WeakRefBase) : WeakRefBase :=
  {| obj_ := v; prev_ := prev_ r; next_ := next_ r |}.
Definition set_prev_ (v : option addr) (r : WeakRefBase) : WeakRefBase :=
  {| obj_ := obj_ r; prev_ := v; next_ := next_ r |}.
Definition set_next_ (v : option addr) (r : WeakRefBase) : WeakRefBase :=
  {| obj_ := obj_ r; prev_ := prev_ r; next_ := v |}.

Definition with_mutex (v : bool) (w : World) : World :=
  {| object_list_mutex := v; object_list_first := object_list_first w;
     object_count := object_count w; real_time := real_time w;
     objects := objects w; weak_refs := weak_refs w;
     log_sink := log_sink w; std_out := std_out w; trace := trace w |}.

Definition with_first (v : option addr) (w : World) : World :=
  {| object_list_mutex := object_list_mutex w; object_list_first := v;
     object_count := object_count w; real_time := real_time w;
     objects := objects w; weak_refs := weak_refs w;
     log_sink := log_sink w; std_out := std_out w; trace := trace w |}.

Definition with_count (v : Z) (w : World) : World :=
  {| object_list_mutex := object_list_mutex w;
     object_list_first := object_list_first w;
     object_count := v; real_time := real_time w;
     objects := objects w; weak_refs := weak_refs w;
     log_sink := log_sink w; std_out := std_out w; trace := trace w |}.

Definition with_objects (v : gmap N Object) (w : World) : World :=
  {| object_list_mutex := object_list_mutex w;
     object_list_first := object_list_first w;
     object_count := object_count w; real_time := real_time w;
     objects := v; weak_refs := weak_refs w;
     log_sink := log_sink w; std_out := std_out w; trace := trace w |}.

Definition with_weak_refs (v : gmap N WeakRefBase) (w : World) : World :=
  {| object_list_mutex := object_list_mutex w;
     object_list_first := object_list_first w;
     object_count := object_count w; real_time := real_time w;
     objects := objects w; weak_refs := v;
     log_sink := log_sink w; std_out := std_out w; trace := trace w |}.

Definition with_log_sink (v : list (LogLevel * string)) (w : World) : World :=
  {| object_list_mutex := object_list_mutex w;
     object_list_first := object_list_first w;
     object_count := object_count w; real_time := real_time w;
     objects := objects w; weak_refs := weak_refs w;
     log_sink := v; std_out := std_out w; trace := trace w |}.

Definition with_std_out (v : list string) (w : World) : World :=
  {| object_list_mutex := object_list_mutex w;
     object_list_first := object_list_first w;
     object_count := object_count w; real_time := real_time w;
     objects := objects w; weak_refs := weak_refs w;
     log_sink := log_sink w; std_out := v; trace := trace w |}.

Definition with_trace (v : list Event) (w : World) : World :=
  {| object_list_mutex := object_list_mutex w;
     object_list_first := object_list_first w;
     object_count := object_count w; real_time := real_time w;
     objects := objects w; weak_refs := weak_refs w;
     log_sink := log_sink w; std_out := std_out w; trace := v |}.

(** ** The monad of C++ computations *)

(** Ways a computation ends other than by returning. *)
Inductive abort :=
  | Thrown (e : Exception)      (* a C++ exception propagates *)
  | Fatal (msg : string)        (* FatalError(msg) *)
  | AssertFailed                (* a failed assert() *)
  | Undefined                   (* null or dangling dereference, signed overflow *)
  | Blocked                     (* locking a mutex that is already held *)
  | OutOfFuel.                  (* the loop bound of the model was reached *)

Inductive outcome (A : Type) :=
  | Ret (a : A)
  | Abort (r : abort).
Arguments Ret {A} a.
Arguments Abort {A} r.

Definition M (A : Type) : Type := World → outcome A * World.

Definition ret {A} (a : A) : M A := λ w, (Ret a, w).
Definition fail {A} (r : abort) : M A := λ w, (Abort r, w).
Definition bind {A B} (m : M A) (f : A → M B) : M B :=
  λ w, match m w with
       | (Ret a, w') => f a w'
       | (Abort r, w') => (Abort r, w')
       end.

Global Instance M_ret : MRet M := @ret.
Global Instance M_bind : MBind M := λ A B f m, bind m f.

Definition throw {A} (e : Exception) : M A := fail (Thrown e).

Definition gets {A} (f : World → A) : M A := λ w, (Ret (f w), w).
Definition modify (f : World → World) : M unit := λ w, (Ret tt, f w).

Definition emit (e : Event) : M unit :=
  modify (λ w, with_trace (trace w ++ [e]) w).

(** *** Registry state of [g_app] *)

Definition touch_registry : M unit :=
  modify (λ w, with_trace (trace w ++ [EvRegistry (object_list_mutex w)]) w).

Definition get_object_list_first : M (option addr) :=
  touch_registry;; gets object_list_first.
Definition put_object_list_first (v : option addr) : M unit :=
  touch_registry;; modify (with_first v).
Definition get_object_count : M Z :=
  touch_registry;; gets object_count.
Definition put_object_count (v : Z) : M unit :=
  touch_registry;; modify (with_count v).

(** [std::scoped_lock lock(g_app->object_list_mutex)] and the end of its
    scope. [std::mutex] is not recursive. *)
Definition lock_object_list_mutex : M unit :=
  held ← gets object_list_mutex;
  if held : bool then fail Blocked
  else emit EvLock;; modify (with_mutex true).
Definition unlock_object_list_mutex : M unit :=
  emit EvUnlock;; modify (with_mutex false).

(** *** Object and weak-reference storage *)

(** [p->field]: dereferencing an address that holds no object is undefined. *)
Definition read {A} (p : addr) (field : Object → A) : M A :=
  λ w, match objects w !! p with
       | Some o => (Ret (field o), w)
       | None => (Abort Undefined, w)
       end.
Definition write (p : addr) (upd : Object → Object) : M unit :=
  λ w, match objects w !! p with
       | Some o => (Ret tt, with_objects (<[p := upd o]> (objects w)) w)
       | None => (Abort Undefined, w)
       end.

(** The registry links [object_prev_] and [object_next_] of an instance. *)
Definition read_link {A} (p : addr) (field : Object → A) : M A :=
  touch_registry;; read p field.
Definition write_link (p : addr) (upd : Object → Object) : M unit :=
  touch_registry;; write p upd.

Definition wread {A} (p : addr) (field : WeakRefBase → A) : M A :=
  λ w, match weak_refs w !! p with
       | Some r => (Ret (field r), w)
       | None => (Abort Undefined, w)
       end.
Definition wwrite (p : addr) (upd : WeakRefBase → WeakRefBase) : M unit :=
  λ w, match weak_refs w !! p with
       | Some r => (Ret tt, with_weak_refs (<[p := upd r]> (weak_refs w)) w)
       | None => (Abort Undefined, w)
       end.

(** *** Output channels and the clock *)

Definition Log (lvl : LogLevel) (s : string) : M unit :=
  modify (λ w, with_log_sink (log_sink w ++ [(lvl, s)]) w).
Definition printf (s : string) : M unit :=
  modify (λ w, with_std_out (std_out w ++ [s]) w).
Definition GetRealTime : M Z := gets real_time.

(** *** [int] arithmetic: signed overflow is undefined *)

Definition INT_MAX : Z := 2147483647.
Definition INT_MIN : Z := -2147483648.

Definition int_incr (x : Z) : M Z :=
  if decide (x < INT_MAX) then ret (x + 1) else fail Undefined.
Definition int_decr (x : Z) : M Z :=
  if decide (INT_MIN < x) then ret (x - 1) else fail Undefined.

(** [std::to_string] on an integer. *)
Definition to_string (x : Z) : string := pretty x.

Definition newline : string := String (Ascii.ascii_of_nat 10%nat) EmptyString.

(** ** [Object::LsObjects] *)

(** [pair<int, string>::operator<]. *)
Definition pair_lt (p q : Z * string) : Prop :=
  p.1 < q.1 ∨ (¬ q.1 < p.1 ∧ String.ltb p.2 q.2 = true).

Global Instance pair_lt_dec p q : Decision (pair_lt p q).
Proof. unfold pair_lt. apply _. Defined.

(** What [std::sort] establishes on the range it is given: no element is
    less than an earlier one. *)
Definition pair_le (p q : Z * string) : Prop := ¬ pair_lt q p.

Global Instance pair_le_dec p q : Decision (pair_le p q).
Proof. unfold pair_le. apply _. Defined.

(** [std::sort(v.rbegin(), v.rend())]: the reversed view of [v] is sorted. *)
Definition sort_reversed (v : list (Z * string)) : list (Z * string) :=
  reverse (merge_sort pair_le (reverse v)).

(** The virtual [GetObjectTypeName()] of the instance at [p]. *)
Definition GetObjectTypeName (p : addr) : M string := read p type_name.

(** The tallying loop, lines 27-42: [o] walks the live list, [count] and
    [obj_map] are the loop's locals. *)
Fixpoint tally_loop (fuel : nat) (o : option addr) (count : Z)
    (obj_map : gmap string Z) : M (Z * gmap string Z) :=
  match fuel with
  | O => fail OutOfFuel
  | S fuel' =>
    match o with
    | None => mret (count, obj_map)
    | Some p =>
      count' ← int_incr count;
      obj_name ← GetObjectTypeName p;
      obj_map' ← match obj_map !! obj_name with
                 | None => mret (<[obj_name := 1]> obj_map)
                 | Some n => n' ← int_incr n; mret (<[obj_name := n']> obj_map)
                 end;
      next ← read_link p object_next_;
      tally_loop fuel' next count' obj_map'
    end
  end.

Definition report_line (i : Z * string) : string :=
  newline +:+ "   " +:+ to_string i.1 +:+ ": " +:+ i.2.

(** [Object::LsObjects], lines 14-61. [explicit_bool(true)] is [true]; the
    lock is the [scoped_lock] of the inner block, released before [Log]. The
    map's iteration order is whatever [map_to_list] gives: the sort makes
    the result independent of it. *)
Definition LsObjects (BA_DEBUG_BUILD : bool) (fuel : nat) : M unit :=
  if BA_DEBUG_BUILD then
    lock_object_list_mutex;;
    n ← get_object_count;
    now ← GetRealTime;
    let s := to_string n +:+ " Objects at time " +:+ to_string now +:+ ";" in
    first ← get_object_list_first;
    '(count, obj_map) ← tally_loop fuel first 0 ∅;
    let sorted := sort_reversed ((λ i, (i.2, i.1)) <$> map_to_list obj_map) in
    let s := foldl (λ s i, s +:+ report_line i) s sorted in
    n' ← get_object_count;
    (if decide (count = n') then mret tt else fail AssertFailed);;
    unlock_object_list_mutex;;
    Log kInfo s
  else
    Log kInfo "LsObjects() only functions in debug builds.".

(** ** [Object::Object] and [Object::~Object] *)

(** The values the members have when the constructor body starts. The
    ownership policy, the check flag, the type name and the override of
    [GetDefaultOwnerThread()] are those of the concrete type being
    constructed. *)
Record ObjectInit := {
  init_thread_ownership : ThreadOwnership;
  init_thread_checks_enabled : bool;
  init_type_name : string;
  init_default_owner_override : option ThreadTag
}.

(** Modelled from the spec: the default member initialisers of [object.h],
    which is not part of these sources. An instance starts with no strong
    references, an empty weak chain and an unbound owner role. *)
Definition fresh_object (i : ObjectInit) : Object :=
  {| object_prev_ := None; object_next_ := None;
     object_birth_time_ := 0;
     object_strong_ref_count_ := 0;
     object_weak_refs_ := None;
     thread_ownership_ := init_thread_ownership i;
     owner_thread_ := kInvalid;
     thread_checks_enabled_ := init_thread_checks_enabled i;
     type_name := init_type_name i;
     default_owner_override := init_default_owner_override i |}.

(** [Object::Object], lines 63-78, run on the storage at [this]: the
    members get their initial values, then the body runs. The lock is
    declared at function scope and released when the body ends. *)
Definition Object_ctor (BA_DEBUG_BUILD : bool) (i : ObjectInit)
    (this : addr) : M unit :=
  modify (λ w, with_objects (<[this := fresh_object i]> (objects w)) w);;
  if BA_DEBUG_BUILD then
    now ← GetRealTime;
    write this (set_object_birth_time_ now);;
    lock_object_list_mutex;;
    write_link this (set_object_prev_ None);;
    first ← get_object_list_first;
    write_link this (set_object_next_ first);;
    put_object_list_first (Some this);;
    next ← read_link this object_next_;
    match next with
    | Some n => write_link n (set_object_prev_ (Some this))
    | None => mret tt
    end;;
    c ← get_object_count;
    c' ← int_incr c;
    put_object_count c';;
    unlock_object_list_mutex
  else mret tt.

Definition dying_warning : string :=
  "Warning: Object is dying with non-zero ref-count; this is bad. "
  +:+ "(this might mean the object raised an exception in its constructor"
  +:+ " after being strong-referenced first)." +:+ newline.

(** Lines 84-92: pull [this] out of the global list. *)
Definition unlink_from_object_list (this : addr) : M unit :=
  next ← read_link this object_next_;
  match next with
  | Some n =>
    prev ← read_link this object_prev_;
    write_link n (set_object_prev_ prev)
  | None => mret tt
  end;;
  prev ← read_link this object_prev_;
  match prev with
  | Some p =>
    next ← read_link this object_next_;
    write_link p (set_object_next_ next)
  | None =>
    next ← read_link this object_next_;
    put_object_list_first next
  end;;
  c ← get_object_count;
  c' ← int_decr c;
  put_object_count c'.

(** Lines 110-116: the loop that invalidates the weak references. *)
Fixpoint invalidate_weak_refs (fuel : nat) (this : addr) : M unit :=
  match fuel with
  | O => fail OutOfFuel
  | S fuel' =>
    head ← read this object_weak_refs_;
    match head with
    | None => mret tt
    | Some tmp =>
      next ← wread tmp next_;
      write this (set_object_weak_refs_ next);;
      wwrite tmp (set_prev_ None);;
      wwrite tmp (set_next_ None);;
      wwrite tmp (set_obj_ None);;
      invalidate_weak_refs fuel' this
    end
  end.

(** The destructor body. The lock is declared at function scope, so it is
    released when the body ends. Releasing the storage of [this] is the
    caller's business. *)
Definition Object_dtor (BA_DEBUG_BUILD : bool) (fuel : nat)
    (this : addr) : M unit :=
  (if BA_DEBUG_BUILD then
     lock_object_list_mutex;;
     unlink_from_object_list this;;
     n ← read this object_strong_ref_count_;
     if decide (n ≠ 0) then printf dying_warning else mret tt
   else mret tt);;
  invalidate_weak_refs fuel this;;
  if BA_DEBUG_BUILD then unlock_object_list_mutex else mret tt.

(** ** Thread affinity *)

(** [InMainThread()], [InLogicThread()], ... of the calling thread [th],
    indexed by the role they test. No thread is the invalid one. *)
Definition in_thread (th : Thread) (t : ThreadTag) : bool :=
  match t with
  | kMain => InMainThread th
  | kLogic => InLogicThread th
  | kAudio => InAudioThread th
  | kNetworkWrite => InNetworkWriteThread th
  | kAssets => InAssetsThread th
  | kBGDynamics => InBGDynamicsThread th
  | kInvalid => false
  end.

Definition InThread (th : Thread) (t : ThreadTag) : M bool :=
  emit (EvInThread t);; mret (in_thread th t).

Definition CurrentThreadName (th : Thread) : M string :=
  emit EvThreadName;; mret (GetCurrentThreadName th).

(** [Object::GetDefaultOwnerThread], lines 129-131: the implementation a
    type has unless it overrides it. *)
Definition Object_GetDefaultOwnerThread : ThreadTag := kLogic.

(** The virtual call [GetDefaultOwnerThread()] on the instance at [this]:
    the override of its type when there is one, the implementation of
    [Object] otherwise. *)
Definition GetDefaultOwnerThread (this : addr) : M ThreadTag :=
  emit EvGetDefaultOwnerThread;;
  override ← read this default_owner_override;
  mret (default Object_GetDefaultOwnerThread override).

Definition GetThreadOwnership (BA_DEBUG_BUILD : bool) (this : addr)
    : M ThreadOwnership :=
  emit EvGetThreadOwnership;;
  if BA_DEBUG_BUILD then read this thread_ownership_
  else fail (Fatal "Should not be called in release builds.").

(** [GetCurrentThreadTag], lines 144-161 (debug builds only). *)
Definition GetCurrentThreadTag (th : Thread) : M ThreadTag :=
  b ← InThread th kMain;
  if b : bool then mret kMain else
  b ← InThread th kLogic;
  if b : bool then mret kLogic else
  b ← InThread th kAudio;
  if b : bool then mret kAudio else
  b ← InThread th kNetworkWrite;
  if b : bool then mret kNetworkWrite else
  b ← InThread th kAssets;
  if b : bool then mret kAssets else
  b ← InThread th kBGDynamics;
  if b : bool then mret kBGDynamics else
  name ← CurrentThreadName th;
  throw (MkException (Some ("unrecognized thread: " +:+ name))).

(** [Object::ObjectUpdateForAcquire], lines 163-172 (debug builds only). *)
Definition ObjectUpdateForAcquire (th : Thread) (this : addr) : M unit :=
  thread_ownership ← GetThreadOwnership true this;
  if decide (thread_ownership = kNextReferencing) then
    owner ← read this owner_thread_;
    if decide (owner = kInvalid) then
      t ← GetCurrentThreadTag th;
      write this (set_owner_thread_ t)
    else mret tt
  else mret tt.

Section ThreadCheck.

(** [Utils::PtrToString], which is not part of these sources. *)
Variable PtrToString : addr → string.

Definition GetObjectDescription (this : addr) : M string :=
  name ← GetObjectTypeName this;
  mret ("<" +:+ name +:+ " object at " +:+ PtrToString this +:+ ">").

(** The [DO_FAIL(THREADNAME)] macro. *)
Definition DO_FAIL (th : Thread) (this : addr) (THREADNAME : string)
    : M unit :=
  descr ← GetObjectDescription this;
  got ← CurrentThreadName th;
  throw (MkException (Some ("ObjectThreadCheck failed for " +:+ descr
                            +:+ "; expected " +:+ THREADNAME
                            +:+ " thread; got " +:+ got))).

Definition expect_thread (th : Thread) (this : addr) (t : ThreadTag)
    (THREADNAME : string) : M unit :=
  b ← InThread th t;
  if negb b then DO_FAIL th this THREADNAME else mret tt.

(** [Object::ObjectThreadCheck], lines 174-226 (debug builds only). *)
Definition ObjectThreadCheck (th : Thread) (this : addr) : M unit :=
  enabled ← read this thread_checks_enabled_;
  if negb enabled then mret tt else
  thread_ownership ← GetThreadOwnership true this;
  t ← (if decide (thread_ownership = kClassDefault)
       then GetDefaultOwnerThread this
       else read this owner_thread_);
  match t with
  | kMain => expect_thread th this kMain "Main"
  | kLogic => expect_thread th this kLogic "Logic"
  | kAudio => expect_thread th this kAudio "Audio"
  | kNetworkWrite => expect_thread th this kNetworkWrite "NetworkWrite"
  | kAssets => expect_thread th this kAssets "Assets"
  | kBGDynamics => expect_thread th this kBGDynamics "BGDynamics"
  | _ => throw (MkException None)
  end.

End ThreadCheck.

(** ** [MeshData] *)

(** [class MeshData] of [mesh_data.h]; it names no base class. *)
Record MeshData := {
  renderer_data_ : option addr;
  type_ : Z;
  draw_type_ : Z
}.

(** [MeshData::~MeshData]. With no base class, no other destructor runs
    after this body. *)
Definition MeshData_dtor (m : MeshData) : M unit :=
  match renderer_data_ m with
  | Some _ => Log kError "MeshData going down with rendererData intact!"
  | None => mret tt
  end.

(** * Specification vocabulary

    The predicates and functions the properties below are stated with. *)

(** ** Roles and the affinity check *)

(** The roles [GetCurrentThreadTag] can answer. *)
Definition known_roles : list ThreadTag :=
  [kMain; kLogic; kAudio; kNetworkWrite; kAssets; kBGDynamics].

(** The exception [GetCurrentThreadTag] throws for the thread [th]. *)
Definition unrecognized_thread (th : Thread) : Exception :=
  MkException (Some ("unrecognized thread: " +:+ GetCurrentThreadName th)).

(** The name [ObjectThreadCheck] prints for each role it can expect. *)
Definition role_name (t : ThreadTag) : string :=
  match t with
  | kMain => "Main"
  | kLogic => "Logic"
  | kAudio => "Audio"
  | kNetworkWrite => "NetworkWrite"
  | kAssets => "Assets"
  | kBGDynamics => "BGDynamics"
  | kInvalid => ""
  end.

(** The default role of the type of [o]: the one its override of
    [GetDefaultOwnerThread()] names, the logic role when the type has
    none. *)
Definition default_owner_thread (o : Object) : ThreadTag :=
  match default_owner_override o with
  | Some t => t
  | None => kLogic
  end.

(** The role an access is checked against: the default role of the type
    under [kClassDefault], the instance's owner role otherwise. *)
Definition required_role (o : Object) : ThreadTag :=
  match thread_ownership_ o with
  | kClassDefault => default_owner_thread o
  | kNextReferencing => owner_thread_ o
  end.

(** The ghost events of resolving the required role. *)
Definition resolve_events (o : Object) : list Event :=
  match thread_ownership_ o with
  | kClassDefault => [EvGetThreadOwnership; EvGetDefaultOwnerThread]
  | kNextReferencing => [EvGetThreadOwnership]
  end.

(** What [GetObjectDescription] returns for the instance [o] at [this]. *)
Definition object_description (PtrToString : addr → string) (this : addr)
    (o : Object) : string :=
  "<" +:+ type_name o +:+ " object at " +:+ PtrToString this +:+ ">".

(** The exception of a failed check. *)
Definition check_failure (PtrToString : addr → string) (th : Thread)
    (this : addr) (o : Object) : Exception :=
  MkException (Some ("ObjectThreadCheck failed for "
                     +:+ object_description PtrToString this o
                     +:+ "; expected " +:+ role_name (required_role o)
                     +:+ " thread; got " +:+ GetCurrentThreadName th)).

(** ** The live list and the registry invariant *)

(** [dllseg h prev cur l nxt]: following [object_next_] from [cur] visits
    exactly the instances [l] and then reaches [nxt]; the [object_prev_] of
    each visited instance is the one visited before it ([prev] for the
    first). *)
Fixpoint dllseg (h : gmap N Object) (prev cur : option addr)
    (l : list addr) (nxt : option addr) : Prop :=
  match l with
  | [] => cur = nxt
  | a :: l' =>
    cur = Some a ∧
    ∃ o, h !! a = Some o ∧ object_prev_ o = prev ∧
         dllseg h (Some a) (object_next_ o) l' nxt
  end.

(** The instance before whatever follows the segment [l]. *)
Definition last_or (prev : option addr) (l : list addr) : option addr :=
  match last l with
  | Some a => Some a
  | None => prev
  end.

(** The registry invariant: the live list holds exactly [l], and the live
    count is the number of instances in it. *)
Definition registry_ok (w : World) (l : list addr) : Prop :=
  dllseg (objects w) None (object_list_first w) l None
  ∧ object_count w = Z.of_nat (length l).

(** The ghost events of one critical section: the lock is taken, every
    registry access that follows is made with the mutex held, and the lock
    is released at the end. *)
Fixpoint all_held (evs : list Event) : bool :=
  match evs with
  | [EvUnlock] => true
  | EvRegistry true :: evs' => all_held evs'
  | _ => false
  end.

(** A whole critical section, from taking the lock to releasing it. *)
Definition under_lock (evs : list Event) : bool :=
  match evs with
  | EvLock :: evs' => all_held evs'
  | _ => false
  end.

(** Registry accesses made while the mutex is held. *)
Definition held_accesses (evs : list Event) : Prop :=
  Forall (λ e, e = EvRegistry true) evs.

(** ** The weak chain *)

(** An invalidated weak reference. *)
Definition null_ref : WeakRefBase :=
  {| obj_ := None; prev_ := None; next_ := None |}.

(** [weak_chain wr cur ws]: following [next_] from [cur] visits exactly the
    nodes [ws] and then reaches [nullptr]. *)
Fixpoint weak_chain (wr : gmap N WeakRefBase) (cur : option addr)
    (ws : list addr) : Prop :=
  match ws with
  | [] => cur = None
  | a :: ws' =>
    cur = Some a ∧ ∃ r, wr !! a = Some r ∧ weak_chain wr (next_ r) ws'
  end.

(** The weak-reference storage once every node of [ws] is invalidated. *)
Definition clear_refs (ws : list addr) (wr : gmap N WeakRefBase)
    : gmap N WeakRefBase :=
  foldl (λ m a, <[a := null_ref]> m) wr ws.

(** ** Destruction and acquisition *)

(** What the destructor prints for a strong count [n]. *)
Definition dying_output (n : Z) : list string :=
  if decide (n ≠ 0) then [dying_warning] else [].

(** Strong references acquired one after the other, by the threads [ths]. *)
Fixpoint acquire_all (ths : list Thread) (this : addr) : M unit :=
  match ths with
  | [] => mret tt
  | th :: ths' => ObjectUpdateForAcquire th this;; acquire_all ths' this
  end.

(** ** The census *)

(** Later entries of a sorted report are strictly smaller pairs. *)
Definition descending (p q : Z * string) : Prop := pair_lt q p.

(** One step of the tally of lines 31-41. *)
Definition tally_one (m : gmap string Z) (name : string) : gmap string Z :=
  match m !! name with
  | None => <[name := 1]> m
  | Some n => <[name := n + 1]> m
  end.

(** The tally of a list of names, added to the tally [m]. *)
Definition tally (names : list string) (m : gmap string Z) : gmap string Z :=
  foldl tally_one m names.

(** How many of [names] are [x]. *)
Definition occurrences (x : string) (names : list string) : Z :=
  Z.of_nat (length (filter (λ y, y = x) names)).

(** The type names of the instances [l], in list order. *)
Definition type_names (h : gmap N Object) (l : list addr) : list string :=
  (λ a, from_option type_name "" (h !! a)) <$> l.

(** The report [LsObjects] logs for a live count, a time and sorted groups. *)
Definition census_report (n now : Z) (groups : list (Z * string)) : string :=
  foldl (λ s i, s +:+ report_line i)
    (to_string n +:+ " Objects at time " +:+ to_string now +:+ ";") groups.

(** The sum of the counts of the groups. *)
Definition total (groups : list (Z * string)) : Z :=
  foldr (λ g acc, g.1 + acc) 0 groups.

(** The (count, name) pairs of a tally, in the map's iteration order. *)
Definition entries (m : gmap string Z) : list (Z * string) :=
  (λ i, (i.2, i.1)) <$> map_to_list m.

(** The groups [LsObjects] reports for the type names [names]. *)
Definition census_groups (names : list string) : list (Z * string) :=
  sort_reversed (entries (tally names ∅)).

(** ** Concrete worlds, threads and instances *)

(** The world a computation leaves behind. *)
Definition exec (m : M unit) (w : World) : World := (m w).2.

(** No instance is live, nothing was logged or printed. *)
Definition empty_world : World :=
  {| object_list_mutex := false; object_list_first := None; object_count := 0;
     real_time := 1000; objects := ∅; weak_refs := ∅; log_sink := [];
     std_out := []; trace := [] |}.

(** A class-default instance with checks enabled and the given type name,
    of a type that does not override [GetDefaultOwnerThread()]. *)
Definition init_of (name : string) : ObjectInit :=
  {| init_thread_ownership := kClassDefault;
     init_thread_checks_enabled := true;
     init_type_name := name;
     init_default_owner_override := None |}.

(** Seven live instances: three of type A, one of type B, three of type C. *)
Definition abc_world : World :=
  exec (Object_ctor true (init_of "A") 1;;
        Object_ctor true (init_of "C") 2;;
        Object_ctor true (init_of "B") 3;;
        Object_ctor true (init_of "A") 4;;
        Object_ctor true (init_of "C") 5;;
        Object_ctor true (init_of "C") 6;;
        Object_ctor true (init_of "A") 7) empty_world.

(** The report expected for [abc_world]. *)
Definition abc_report : string :=
  "7 Objects at time 1000;"
  +:+ newline +:+ "   3: C"
  +:+ newline +:+ "   3: A"
  +:+ newline +:+ "   1: B".

(** The error [MeshData::~MeshData] logs. *)
Definition mesh_data_error : string :=
  "MeshData going down with rendererData intact!".

(** A mesh whose renderer data is still loaded. *)
Definition loaded_mesh : MeshData :=
  {| renderer_data_ := Some 64%N; type_ := 0; draw_type_ := 0 |}.

(** A stand-in for [Utils::PtrToString]. *)
Definition hex_ptr (p : addr) : string := "0x" +:+ pretty p.

(** The audio thread, the logic thread, and a thread with no role. *)
Definition audio_thread : Thread :=
  {| InMainThread := false; InLogicThread := false; InAudioThread := true;
     InNetworkWriteThread := false; InAssetsThread := false;
     InBGDynamicsThread := false; GetCurrentThreadName := "audio" |}.

Definition logic_thread : Thread :=
  {| InMainThread := false; InLogicThread := true; InAudioThread := false;
     InNetworkWriteThread := false; InAssetsThread := false;
     InBGDynamicsThread := false; GetCurrentThreadName := "logic" |}.

Definition stray_thread : Thread :=
  {| InMainThread := false; InLogicThread := false; InAudioThread := false;
     InNetworkWriteThread := false; InAssetsThread := false;
     InBGDynamicsThread := false; GetCurrentThreadName := "worker" |}.

(** An unregistered-looking instance with the given policy, owner role,
    check flag, strong count and weak chain head, of a type that does not
    override [GetDefaultOwnerThread()]. *)
Definition sample_object (mode : ThreadOwnership) (owner : ThreadTag)
    (checks : bool) (strong : Z) (weak : option addr) : Object :=
  {| object_prev_ := None; object_next_ := None; object_birth_time_ := 1000;
     object_strong_ref_count_ := strong; object_weak_refs_ := weak;
     thread_ownership_ := mode; owner_thread_ := owner;
     thread_checks_enabled_ := checks; type_name := "Node";
     default_owner_override := None |}.

(** A world whose registry holds the single instance [o] at address 1. *)
Definition single_world (o : Object) : World :=
  {| object_list_mutex := false; object_list_first := Some 1%N;
     object_count := 1; real_time := 1000; objects := {[1%N := o]};
     weak_refs := ∅; log_sink := []; std_out := []; trace := [] |}.

(** Instances used below. *)
Definition opted_out_object : Object :=
  sample_object kClassDefault kInvalid false 0 None.
Definition opted_out_unbound_object : Object :=
  sample_object kNextReferencing kInvalid false 0 None.
Definition held_object : Object :=
  sample_object kClassDefault kInvalid true 2 None.
Definition logic_object : Object :=
  sample_object kClassDefault kInvalid true 0 None.
Definition unbound_object : Object :=
  sample_object kNextReferencing kInvalid true 0 None.
Definition bound_object : Object :=
  sample_object kNextReferencing kAudio true 0 None.

(** A class-default instance of a type whose [GetDefaultOwnerThread()]
    returns [ThreadTag::kAudio]. *)
Definition audio_default_object : Object :=
  {| object_prev_ := None; object_next_ := None; object_birth_time_ := 1000;
     object_strong_ref_count_ := 0; object_weak_refs_ := None;
     thread_ownership_ := kClassDefault; owner_thread_ := kInvalid;
     thread_checks_enabled_ := true; type_name := "Sound";
     default_owner_override := Some kAudio |}.

(** An instance whose weak chain starts at the node at address 10. *)
Definition weak_object : Object :=
  sample_object kClassDefault kInvalid true 0 (Some 10%N).

(** The instance at address 1 with two weak references bound to it. *)
Definition weak_world : World :=
  with_weak_refs
    {[ 10%N := {| obj_ := Some 1%N; prev_ := None; next_ := Some 11%N |};
       11%N := {| obj_ := Some 1%N; prev_ := Some 10%N; next_ := None |} ]}
    (single_world weak_object).

(** * Further vocabulary *)

(** ** What an operation leaves alone *)

(** An instance without its registry links. *)
Definition unlinked (o : Object) : Object :=
  set_object_prev_ None (set_object_next_ None o).

(** Two states of an instance that differ in the registry links at most. *)
Definition same_payload (o o' : Object) : Prop := unlinked o = unlinked o'.

(** From [w] to [w'], every instance other than [this] kept its place in
    the store and everything but its registry links, and the clock was not
    touched. *)
Definition others_kept (this : addr) (w w' : World) : Prop :=
  (∀ a, a ≠ this →
        option_Forall2 same_payload (objects w !! a) (objects w' !! a))
  ∧ real_time w' = real_time w.

(** From [w] to [w'], nothing but the ghost trace changed, and the trace
    only grew. *)
Definition only_traced (w w' : World) : Prop :=
  ∃ evs, w' = with_trace (trace w ++ evs) w.

(** The computation [m] takes every world to one related to it by [R],
    whether it returns or aborts. *)
Definition keeps {A} (R : World → World → Prop) (m : M A) : Prop :=
  ∀ w, R w (m w).2.

(** ** Sequences of constructions and destructions *)

(** Instances constructed one after the other (debug build). *)
Fixpoint construct_all (insts : list (ObjectInit * addr)) : M unit :=
  match insts with
  | [] => mret tt
  | (i, p) :: insts' => Object_ctor true i p;; construct_all insts'
  end.

(** Instances destroyed one after the other (debug build). *)
Fixpoint destroy_all (fuel : nat) (ps : list addr) : M unit :=
  match ps with
  | [] => mret tt
  | p :: ps' => Object_dtor true fuel p;; destroy_all fuel ps'
  end.

(** ** [MeshData] construction and access *)

(** [MeshData::MeshData(type, draw_type)]: the renderer data starts null. *)
Definition MeshData_ctor (type draw_type : Z) : MeshData :=
  {| renderer_data_ := None; type_ := type; draw_type_ := draw_type |}.

(** [MeshData::renderer_data()]. [asserts] tells whether [assert] is
    compiled in. *)
Definition renderer_data (asserts : bool) (m : MeshData) : M (option addr) :=
  (if asserts && bool_decide (renderer_data_ m = None)
   then fail AssertFailed else mret tt);;
  mret (renderer_data_ m).

(** ** The oracle's priority *)

(** The first of the known roles, in the order [GetCurrentThreadTag] asks,
    that the thread matches. *)
Definition first_role (th : Thread) : option ThreadTag :=
  List.find (in_thread th) known_roles.

(** The roles of [ts] up to and including [r]. *)
Fixpoint roles_until (r : ThreadTag) (ts : list ThreadTag) : list ThreadTag :=
  match ts with
  | [] => []
  | t :: ts' => if decide (t = r) then [t] else t :: roles_until r ts'
  end.

(** The predicates [GetCurrentThreadTag] has asked when it answers [r]. *)
Definition asked_until (r : ThreadTag) : list Event :=
  EvInThread <$> roles_until r known_roles.

(** ** More concrete inputs *)

(** [abc_world] with a live count that is off by two. *)
Definition miscounted_world : World := with_count 5 abc_world.

(** Three instances to construct, oldest first. *)
Definition three_insts : list (ObjectInit * addr) :=
  [(init_of "Sound", 3%N); (init_of "Node", 5%N); (init_of "Sound", 9%N)].

(** The same three instances, constructed in another order. *)
Definition three_insts_shuffled : list (ObjectInit * addr) :=
  [(init_of "Node", 5%N); (init_of "Sound", 9%N); (init_of "Sound", 3%N)].

(** * Properties *)

(** ** Running computations *)

Ltac unfold_monad :=
  unfold mbind, M_bind, bind, mret, M_ret, ret, fail, throw, gets, modify in *.

Ltac unfold_prims :=
  unfold InThread, CurrentThreadName, GetDefaultOwnerThread,
    GetThreadOwnership, GetObjectTypeName, emit, touch_registry,
    get_object_list_first, put_object_list_first, get_object_count,
    put_object_count, lock_object_list_mutex, unlock_object_list_mutex,
    read_link, write_link, read, write, wread, wwrite, Log, printf,
    GetRealTime in *.

Ltac run := unfold_prims; unfold_monad; cbn.

(** ** The thread identity oracle *)

Lemma in_thread_known th t : in_thread th t = true → t ∈ known_roles.
Proof. destruct t; cbn; [discriminate | set_solver ..]. Qed.

(** [GetCurrentThreadTag] only appends queries to the trace. *)
Lemma GetCurrentThreadTag_world th w :
  ∃ evs, (GetCurrentThreadTag th w).2 = with_trace (trace w ++ evs) w.
Proof.
  unfold GetCurrentThreadTag. run.
  destruct (InMainThread th); [by eexists [_] |].
  destruct (InLogicThread th); cbn; rewrite <- ?app_assoc; [by eexists |].
  destruct (InAudioThread th); cbn; rewrite <- ?app_assoc; [by eexists |].
  destruct (InNetworkWriteThread th); cbn; rewrite <- ?app_assoc; [by eexists |].
  destruct (InAssetsThread th); cbn; rewrite <- ?app_assoc; [by eexists |].
  destruct (InBGDynamicsThread th); cbn; rewrite <- ?app_assoc; by eexists.
Qed.

Lemma GetCurrentThreadTag_ret th w r :
  (GetCurrentThreadTag th w).1 = Ret r → in_thread th r = true.
Proof.
  unfold GetCurrentThreadTag. run.
  destruct (InMainThread th) eqn:?; cbn; [by intros [= <-] |].
  destruct (InLogicThread th) eqn:?; cbn; [by intros [= <-] |].
  destruct (InAudioThread th) eqn:?; cbn; [by intros [= <-] |].
  destruct (InNetworkWriteThread th) eqn:?; cbn; [by intros [= <-] |].
  destruct (InAssetsThread th) eqn:?; cbn; [by intros [= <-] |].
  destruct (InBGDynamicsThread th) eqn:?; cbn; [by intros [= <-] |].
  discriminate.
Qed.

Lemma GetCurrentThreadTag_recognized th w t :
  in_thread th t = true → ∃ r, (GetCurrentThreadTag th w).1 = Ret r.
Proof.
  intros Ht. unfold GetCurrentThreadTag. run.
  destruct (InMainThread th) eqn:?; cbn; [by eexists |].
  destruct (InLogicThread th) eqn:?; cbn; [by eexists |].
  destruct (InAudioThread th) eqn:?; cbn; [by eexists |].
  destruct (InNetworkWriteThread th) eqn:?; cbn; [by eexists |].
  destruct (InAssetsThread th) eqn:?; cbn; [by eexists |].
  destruct (InBGDynamicsThread th) eqn:?; cbn; [by eexists |].
  destruct t; cbn in Ht; congruence.
Qed.

Lemma GetCurrentThreadTag_unrecognized th w :
  (∀ t, in_thread th t = false) →
  (GetCurrentThreadTag th w).1 = Abort (Thrown (unrecognized_thread th)).
Proof.
  intros Hnone. unfold GetCurrentThreadTag. run.
  rewrite (Hnone kMain : InMainThread th = false). cbn.
  rewrite (Hnone kLogic : InLogicThread th = false). cbn.
  rewrite (Hnone kAudio : InAudioThread th = false). cbn.
  rewrite (Hnone kNetworkWrite : InNetworkWriteThread th = false). cbn.
  rewrite (Hnone kAssets : InAssetsThread th = false). cbn.
  rewrite (Hnone kBGDynamics : InBGDynamicsThread th = false). cbn.
  reflexivity.
Qed.

(** C6. Queried from a thread that matches none of the known roles,
    [GetCurrentThreadTag] throws an exception whose message carries the
    thread's name and returns no role; from a thread that matches a known
    role it returns a role the thread matches (the only one, when the thread
    matches exactly one), and it never returns the invalid tag. *)
Theorem GetCurrentThreadTag_oracle (th : Thread) (w : World) :
  ((∀ t, in_thread th t = false) →
     (GetCurrentThreadTag th w).1 = Abort (Thrown (unrecognized_thread th)))
  ∧ (∀ t, in_thread th t = true →
       (∀ t', in_thread th t' = true → t' = t) →
       (GetCurrentThreadTag th w).1 = Ret t)
  ∧ (∀ t, in_thread th t = true →
       ∃ r, (GetCurrentThreadTag th w).1 = Ret r ∧ in_thread th r = true)
  ∧ (∀ r, (GetCurrentThreadTag th w).1 = Ret r →
       in_thread th r = true ∧ r ∈ known_roles ∧ r ≠ kInvalid).
Proof.
  split; [| split; [| split]].
  - apply GetCurrentThreadTag_unrecognized.
  - intros t Ht Honly.
    destruct (GetCurrentThreadTag_recognized th w t Ht) as [r Hr].
    rewrite Hr. f_equal. apply Honly. by apply (GetCurrentThreadTag_ret th w).
  - intros t Ht.
    destruct (GetCurrentThreadTag_recognized th w t Ht) as [r Hr].
    exists r. split; [done |]. by apply (GetCurrentThreadTag_ret th w).
  - intros r Hr. apply GetCurrentThreadTag_ret in Hr.
    split; [done |]. split; [by apply (in_thread_known th) |].
    by intros ->.
Qed.

(** ** The affinity check *)

Section ThreadCheckProperties.

Variable PtrToString : addr → string.

Lemma expect_thread_run th this o t w :
  objects w !! this = Some o →
  expect_thread PtrToString th this t (role_name t) w =
    if in_thread th t
    then (Ret tt, with_trace (trace w ++ [EvInThread t]) w)
    else (Abort (Thrown (MkException (Some
            ("ObjectThreadCheck failed for "
             +:+ object_description PtrToString this o
             +:+ "; expected " +:+ role_name t
             +:+ " thread; got " +:+ GetCurrentThreadName th)))),
          with_trace ((trace w ++ [EvInThread t]) ++ [EvThreadName]) w).
Proof.
  intros Ho. unfold expect_thread, DO_FAIL, GetObjectDescription. run.
  destruct (in_thread th t); cbn; [done |]. by rewrite Ho.
Qed.

(** The check, run on an instance whose checks are enabled. *)
Lemma ObjectThreadCheck_enabled th this o w :
  objects w !! this = Some o →
  thread_checks_enabled_ o = true →
  ObjectThreadCheck PtrToString th this w =
    if decide (required_role o = kInvalid)
    then (Abort (Thrown (MkException None)),
          with_trace (trace w ++ resolve_events o) w)
    else expect_thread PtrToString th this (required_role o)
           (role_name (required_role o))
           (with_trace (trace w ++ resolve_events o) w).
Proof.
  intros Ho Hen. unfold ObjectThreadCheck, required_role, resolve_events.
  run. rewrite Ho, Hen. cbn. rewrite Ho. cbn.
  destruct (thread_ownership_ o); case_decide; try done; cbn.
  - rewrite Ho. cbn. rewrite <- app_assoc. cbn.
    unfold default_owner_thread, Object_GetDefaultOwnerThread.
    destruct (default_owner_override o) as [[]|]; cbn; by case_decide.
  - rewrite Ho. cbn. destruct (owner_thread_ o); by case_decide.
Qed.

(** C9. On an instance whose [thread_checks_enabled_] flag is false the
    check returns at once, from any thread and whatever the ownership
    mode and owner role are: the world is left as it was, so neither the
    ownership mode nor any thread predicate was queried, and nothing is
    raised. *)
Theorem ObjectThreadCheck_opt_out (th : Thread) (this : addr) (o : Object)
    (w : World) :
  objects w !! this = Some o →
  thread_checks_enabled_ o = false →
  ObjectThreadCheck PtrToString th this w = (Ret tt, w).
Proof.
  intros Ho Hen. unfold ObjectThreadCheck. run. by rewrite Ho, Hen.
Qed.

(** C10, as amended. On an instance whose checks are enabled, whose mode
    is [kNextReferencing] and whose owner role is still [kInvalid], the
    check throws the message-less [Exception()] of the [default] branch
    from every thread; it queries no thread predicate and leaves the
    instance unbound. *)
Theorem ObjectThreadCheck_unbound (th : Thread) (this : addr) (o : Object)
    (w : World) :
  objects w !! this = Some o →
  thread_checks_enabled_ o = true →
  thread_ownership_ o = kNextReferencing →
  owner_thread_ o = kInvalid →
  ObjectThreadCheck PtrToString th this w =
    (Abort (Thrown (MkException None)),
     with_trace (trace w ++ [EvGetThreadOwnership]) w).
Proof.
  intros Ho Hen Hmode Hown.
  rewrite (ObjectThreadCheck_enabled th this o w Ho Hen).
  unfold required_role, resolve_events. rewrite Hmode, Hown.
  by rewrite decide_True.
Qed.

(** C5, as amended. The required role of an instance is, under
    [kClassDefault], the role [GetDefaultOwnerThread()] returns for the
    type of the instance (the role its override names, the logic role for
    a type that keeps the implementation of [Object]) and, under
    [kNextReferencing], the owner role of the instance. On an instance
    whose checks are enabled and whose required role is a valid one, the
    check asks the calling thread whether it is the thread of that role. If
    it is, the check returns and nothing but the ghost trace has changed;
    if it is not, the check throws an exception whose message names the
    object's description, the expected role and the calling thread's name.
    So an exception is raised exactly when the calling thread is not the
    thread of the required role. *)
Theorem ObjectThreadCheck_valid_role (th : Thread) (this : addr)
    (o : Object) (w : World) :
  objects w !! this = Some o →
  thread_checks_enabled_ o = true →
  required_role o ≠ kInvalid →
  let r := ObjectThreadCheck PtrToString th this w in
  (thread_ownership_ o = kClassDefault →
     (GetDefaultOwnerThread this w).1 = Ret (required_role o)
     ∧ (∀ t, default_owner_override o = Some t → required_role o = t)
     ∧ (default_owner_override o = None → required_role o = kLogic))
  ∧ (thread_ownership_ o = kNextReferencing →
       required_role o = owner_thread_ o)
  ∧ (in_thread th (required_role o) = true →
     r = (Ret tt,
          with_trace (trace w ++ resolve_events o
                      ++ [EvInThread (required_role o)]) w))
  ∧ (in_thread th (required_role o) = false →
       r.1 = Abort (Thrown (check_failure PtrToString th this o))
       ∧ objects r.2 = objects w ∧ log_sink r.2 = log_sink w
       ∧ std_out r.2 = std_out w)
  ∧ ((∃ e, r.1 = Abort (Thrown e)) ↔ in_thread th (required_role o) = false)
  ∧ (∀ role, (GetCurrentThreadTag th w).1 = Ret role →
       (∀ t, in_thread th t = true → t = role) →
       ((∃ e, r.1 = Abort (Thrown e)) ↔ role ≠ required_role o)).
Proof.
  intros Ho Hen Hvalid r. subst r.
  split.
  { intros Hmode. unfold required_role, default_owner_thread.
    rewrite Hmode. split; [| split].
    - unfold GetDefaultOwnerThread. run. rewrite Ho. cbn.
      by destruct (default_owner_override o).
    - by intros t ->.
    - by intros ->. }
  split; [intros Hmode; unfold required_role; by rewrite Hmode |].
  rewrite (ObjectThreadCheck_enabled th this o w Ho Hen).
  rewrite decide_False by done.
  set (w' := with_trace (trace w ++ resolve_events o) w).
  assert (Ho' : objects w' !! this = Some o) by done.
  rewrite (expect_thread_run th this o _ w' Ho').
  unfold check_failure. subst w'. cbn.
  destruct (in_thread th (required_role o)) eqn:Hin; cbn.
  - split; [intros _; by rewrite <- app_assoc |].
    split; [discriminate |].
    split; [split; [by intros [e [=]] | discriminate] |].
    intros role Hrole Honly. split; [by intros [e [=]] |].
    intros Hne. destruct Hne. symmetry. by apply Honly.
  - split; [discriminate |]. split; [done |].
    split; [split; [done | by eexists] |].
    intros role Hrole Honly. split; [| by eexists].
    intros _ Heq. subst role.
    apply GetCurrentThreadTag_ret in Hrole. congruence.
Qed.

End ThreadCheckProperties.

(** ** The live list as a doubly-linked list *)

Lemma last_or_cons prev a l : last_or prev (a :: l) = last_or (Some a) l.
Proof. unfold last_or. rewrite last_cons. by destruct (last l). Qed.

Lemma last_or_snoc prev l a : last_or prev (l ++ [a]) = Some a.
Proof. unfold last_or. by rewrite last_snoc. Qed.

Lemma dllseg_app h prev cur l1 l2 nxt :
  dllseg h prev cur (l1 ++ l2) nxt ↔
  ∃ mid, dllseg h prev cur l1 mid ∧ dllseg h (last_or prev l1) mid l2 nxt.
Proof.
  revert prev cur. induction l1 as [|a l1 IH]; intros prev cur; cbn.
  - split; [intros H; by exists cur | by intros (mid & -> & H)].
  - setoid_rewrite last_or_cons. split.
    + intros (-> & o & Ho & Hp & Hseg). apply IH in Hseg as (mid & H1 & H2).
      exists mid. split; [| done]. split; [done |]. by exists o.
    + intros (mid & (-> & o & Ho & Hp & H1) & H2). split; [done |].
      exists o. split; [done |]. split; [done |]. apply IH. by exists mid.
Qed.

(** The segment only depends on the instances it visits. *)
Lemma dllseg_frame h h' prev cur l nxt :
  (∀ a, a ∈ l → h' !! a = h !! a) →
  dllseg h prev cur l nxt → dllseg h' prev cur l nxt.
Proof.
  revert prev cur. induction l as [|a l IH]; intros prev cur Hsame; cbn; [done |].
  intros (-> & o & Ho & Hp & Hseg). split; [done |]. exists o.
  split; [rewrite Hsame; [done | set_solver] |]. split; [done |].
  apply IH; [| done]. intros b Hb. apply Hsame. set_solver.
Qed.

Lemma dllseg_insert_notin h prev cur l nxt a o :
  a ∉ l → dllseg h prev cur l nxt → dllseg (<[a := o]> h) prev cur l nxt.
Proof.
  intros Ha. apply dllseg_frame. intros b Hb.
  apply lookup_insert_ne. intros ->. done.
Qed.

(** The [object_next_] chain determines the list. *)
Lemma dllseg_det h prev1 prev2 cur l1 l2 :
  dllseg h prev1 cur l1 None → dllseg h prev2 cur l2 None → l1 = l2.
Proof.
  revert prev1 prev2 cur l2.
  induction l1 as [|a l1 IH]; intros prev1 prev2 cur [|b l2]; cbn.
  - done.
  - intros -> [? _]. done.
  - intros [-> _] ?. done.
  - intros (-> & o1 & Ho1 & _ & H1) ([= <-] & o2 & Ho2 & _ & H2).
    rewrite Ho1 in Ho2. injection Ho2 as <-. f_equal. by eapply IH.
Qed.

(** A list that ends in [nullptr] visits no instance twice. *)
Lemma dllseg_NoDup h prev cur l :
  dllseg h prev cur l None → NoDup l.
Proof.
  revert prev cur. induction l as [|a l IH]; intros prev cur; cbn.
  - intros _. constructor.
  - intros (-> & o & Ho & Hp & Hseg). constructor; [| by eapply IH].
    intros Hin. apply list_elem_of_split in Hin as (l1 & l2 & ->).
    pose proof Hseg as Hseg'.
    apply dllseg_app in Hseg' as (mid & _ & Htail).
    assert (Hwhole : dllseg h prev (Some a) (a :: l1 ++ a :: l2) None).
    { cbn. split; [done |]. by exists o. }
    cbn in Htail. destruct Htail as (-> & o' & Ho' & Hp' & Htail).
    assert (Hsub : dllseg h prev (Some a) (a :: l2) None).
    { rewrite Ho in Ho'. injection Ho' as <-.
      cbn. split; [done |]. by exists o. }
    pose proof (dllseg_det _ _ _ _ _ _ Hwhole Hsub) as Heq.
    apply (f_equal length) in Heq. cbn in Heq.
    rewrite length_app in Heq. cbn in Heq. lia.
Qed.

Lemma dllseg_set_prev_head h prev prev' n l nxt o :
  h !! n = Some o → n ∉ l →
  dllseg h prev (Some n) (n :: l) nxt →
  dllseg (<[n := set_object_prev_ prev' o]> h) prev' (Some n) (n :: l) nxt.
Proof.
  intros Ho Hn (_ & o' & Ho' & _ & Hseg). rewrite Ho in Ho'. injection Ho' as <-.
  cbn. split; [done |]. exists (set_object_prev_ prev' o).
  rewrite lookup_insert_eq. split; [done |]. split; [done |].
  by apply dllseg_insert_notin.
Qed.

Lemma dllseg_set_next_last h prev cur l p nxt nxt' o :
  h !! p = Some o → p ∉ l →
  dllseg h prev cur (l ++ [p]) nxt →
  dllseg (<[p := set_object_next_ nxt' o]> h) prev cur (l ++ [p]) nxt'.
Proof.
  intros Ho Hp Hseg. apply dllseg_app in Hseg as (mid & H1 & H2).
  apply dllseg_app. exists mid. split; [by apply dllseg_insert_notin |].
  cbn in H2 |- *. destruct H2 as (-> & o' & Ho' & Hprev & _).
  rewrite Ho in Ho'. injection Ho' as <-.
  split; [done |]. exists (set_object_next_ nxt' o).
  by rewrite lookup_insert_eq.
Qed.

(** What the registry invariant says about one registered instance. *)
Lemma registry_ok_at w l1 l2 this :
  registry_ok w (l1 ++ this :: l2) →
  ∃ o,
    (this ∉ l1) ∧ (this ∉ l2) ∧ NoDup (l1 ++ l2) ∧
    objects w !! this = Some o ∧
    object_prev_ o = last_or None l1 ∧
    dllseg (objects w) None (object_list_first w) l1 (Some this) ∧
    dllseg (objects w) (Some this) (object_next_ o) l2 None.
Proof.
  intros [Hseg _]. pose proof (dllseg_NoDup _ _ _ _ Hseg) as Hnd.
  apply NoDup_app in Hnd as (Hnd1 & Hdisj & Hnd2).
  apply NoDup_cons in Hnd2 as [Hn2 Hnd2].
  apply dllseg_app in Hseg as (mid & H1 & H2). cbn in H2.
  destruct H2 as (-> & o & Ho & Hp & H2).
  exists o.
  split; [intros Hin; apply (Hdisj _ Hin); left |].
  split; [done |]. split; [| done].
  apply NoDup_app. split; [done |]. split; [| done].
  intros x Hx1 Hx2. apply (Hdisj _ Hx1). by right.
Qed.

Lemma dllseg_in_heap h prev cur l nxt a :
  dllseg h prev cur l nxt → a ∈ l → is_Some (h !! a).
Proof.
  revert prev cur. induction l as [|b l IH]; intros prev cur; cbn; [set_solver |].
  intros (-> & o & Ho & _ & Hseg) [-> | Hin]%elem_of_cons; [by exists o | by eapply IH].
Qed.

Lemma Object_ctor_debug i this w l :
  registry_ok w l →
  objects w !! this = None →
  object_list_mutex w = false →
  Z.of_nat (length l) < INT_MAX →
  ∃ w' o evs,
    Object_ctor true i this w = (Ret tt, w') ∧
    registry_ok w' (this :: l) ∧
    object_list_mutex w' = false ∧
    trace w' = trace w ++ evs ∧ under_lock evs = true ∧
    objects w' !! this = Some o ∧
    owner_thread_ o = kInvalid ∧
    thread_ownership_ o = init_thread_ownership i.
Proof.
  intros [Hseg Hcount] Hfresh Hmutex Hbound.
  assert (Hnotin : this ∉ l).
  { intros Hin. destruct (dllseg_in_heap _ _ _ _ _ _ Hseg Hin) as [o Ho]. congruence. }
  destruct w as [mx first cnt time objs wrefs logs out tr]. cbn in *. subst mx cnt.
  unfold Object_ctor. run. rewrite lookup_insert_eq. cbn.
  rewrite lookup_insert_eq. cbn. rewrite insert_insert_eq.
  rewrite lookup_insert_eq. cbn. rewrite insert_insert_eq.
  rewrite lookup_insert_eq. cbn. rewrite !insert_insert_eq.
  unfold int_incr, registry_ok. 
  destruct l as [|n l'].
  - cbn in Hseg. subst first. cbn. rewrite decide_True by done. cbn.
    rewrite <- !app_assoc. cbn.
    eexists _, _, _. split; [reflexivity |]. cbn.
    rewrite lookup_insert_eq.
    split; [split; [| lia] |].
    { split; [done |]. eexists. split; [done |]. done. }
    done.
  - pose proof (dllseg_NoDup _ _ _ _ Hseg) as [Hn _]%NoDup_cons.
    pose proof Hseg as (-> & on & Hon & Hprev & _). cbn.
    assert (Hne : this ≠ n) by (intros ->; apply Hnotin; left).
    rewrite lookup_insert_ne by done. rewrite Hon. cbn.
    rewrite decide_True by done. cbn.
    rewrite <- !app_assoc. cbn.
    eexists _, _, _. split; [reflexivity |]. cbn.
    rewrite lookup_insert_ne by done. rewrite lookup_insert_eq.
    split; [split; [| lia] |].
    { split; [done |]. eexists. split; [done |]. split; [done |].
      change (dllseg (<[n:=set_object_prev_ (Some this) on]>
                        (<[this:=set_object_next_ (Some n)
                                   (set_object_prev_ None
                                      (set_object_birth_time_ time
                                         (fresh_object i)))]> objs))
                (Some this) (Some n) (n :: l') None).
      apply (dllseg_set_prev_head _ None); [by rewrite lookup_insert_ne | done |].
      by apply dllseg_insert_notin. }
    done.
Qed.

Lemma all_held_app evs rest :
  held_accesses evs → all_held (evs ++ rest) = all_held rest.
Proof.
  induction 1 as [|e evs -> _ IH]; [done |]. cbn.
  destruct (evs ++ rest) eqn:E; [| done].
  apply app_eq_nil in E as [-> ->]. done.
Qed.

Lemma unlink_from_object_list_run this w l1 l2 :
  registry_ok w (l1 ++ this :: l2) →
  object_list_mutex w = true →
  ∃ w' evs,
    unlink_from_object_list this w = (Ret tt, w') ∧
    registry_ok w' (l1 ++ l2) ∧
    object_list_mutex w' = true ∧
    trace w' = trace w ++ evs ∧ held_accesses evs ∧
    objects w' !! this = objects w !! this ∧
    weak_refs w' = weak_refs w ∧ log_sink w' = log_sink w ∧
    std_out w' = std_out w.
Proof.
  intros Hok Hmutex.
  destruct (registry_ok_at w _ _ this Hok) as
    (o & Hn1 & Hn2 & Hnd & Ho & Hprev & Hseg1 & Hseg2).
  destruct Hok as [_ Hcount].
  rewrite length_app in Hcount. cbn in Hcount.
  destruct w as [mx first cnt time objs wrefs logs out tr]. cbn in *. subst mx cnt.
  unfold unlink_from_object_list. run. rewrite Ho. cbn.
  unfold registry_ok, int_decr, held_accesses. cbn.
  destruct l2 as [|n l2']; cbn in Hseg2;
    induction l1 as [|p l1' _] using rev_ind.
  - (* the only instance *)
    cbn in Hprev.
    repeat (progress (try rewrite Ho; try rewrite Hseg2; try rewrite Hprev; cbn)).
    rewrite decide_True by (unfold INT_MIN; lia). cbn.
    rewrite <- !app_assoc. cbn.
    eexists _, _. split; [reflexivity |]. cbn.
    split; [split; [done | lia] |]. split; [done |]. split; [done |].
    split; [repeat constructor | done].
  - (* the last instance, after [p] *)
    rewrite last_or_snoc in Hprev.
    repeat (progress (try rewrite Ho; try rewrite Hseg2; try rewrite Hprev; cbn)).
    assert (Hp : p ≠ this).
    { intros ->. apply Hn1. apply elem_of_app. right. left. }
    apply dllseg_app in Hseg1 as Hs. destruct Hs as (mid & Hs1 & Hs2).
    cbn in Hs2. destruct Hs2 as (-> & op & Hop & _ & _).
    rewrite Hop. cbn.
    rewrite decide_True by (unfold INT_MIN; lia). cbn.
    rewrite <- !app_assoc. cbn.
    rewrite app_nil_r in Hnd.
    eexists _, _. split; [reflexivity |]. cbn.
    split; [split |].
    { apply (dllseg_set_next_last _ _ _ _ _ (Some this)); [done | | done].
      apply NoDup_app in Hnd as (_ & Hd & _).
      intros Hin. apply (Hd p Hin). left. }
    { rewrite !length_app. cbn. lia. }
    split; [done |]. split; [done |].
    split; [repeat constructor |].
    split; [by rewrite lookup_insert_ne | done].
  - (* the first instance, before [n] *)
    cbn in Hprev. destruct Hseg2 as (Hnext & on & Hon & Hpn & Hseg2).
    assert (Hn : n ≠ this) by (intros ->; apply Hn2; left).
    repeat (progress (try rewrite Ho; try rewrite Hnext; try rewrite Hprev;
                      try rewrite Hon;
                      try rewrite (lookup_insert_ne _ n this) by done; cbn)).
    rewrite decide_True by (unfold INT_MIN; lia). cbn.
    rewrite <- !app_assoc. cbn.
    eexists _, _. split; [reflexivity |]. cbn.
    split; [split |].
    { apply (dllseg_set_prev_head _ (Some this)); [done | |].
      - by apply NoDup_cons in Hnd as [? _].
      - cbn. split; [done |]. by exists on. }
    { lia. }
    split; [done |]. split; [done |].
    split; [repeat constructor |].
    split; [by rewrite lookup_insert_ne | done].
  - (* between [p] and [n] *)
    rewrite last_or_snoc in Hprev.
    destruct Hseg2 as (Hnext & on & Hon & Hpn & Hseg2).
    assert (Hn : n ≠ this) by (intros ->; apply Hn2; left).
    assert (Hp : p ≠ this).
    { intros ->. apply Hn1. apply elem_of_app. right. left. }
    apply NoDup_app in Hnd as (Hnd1 & Hdisj & Hnd2).
    assert (Hpn' : n ≠ p).
    { intros ->. apply (Hdisj p); [apply elem_of_app; right; left | left]. }
    apply dllseg_app in Hseg1 as Hs. destruct Hs as (mid & Hs1 & Hs2).
    cbn in Hs2. destruct Hs2 as (-> & op & Hop & _ & _).
    repeat (progress (try rewrite Ho; try rewrite Hnext; try rewrite Hprev;
                      try rewrite Hon; try rewrite Hop;
                      try rewrite (lookup_insert_ne _ n this) by done;
                      try rewrite (lookup_insert_ne _ n p) by done; cbn)).
    rewrite decide_True by (unfold INT_MIN; lia). cbn.
    rewrite <- !app_assoc. cbn.
    eexists _, _. split; [reflexivity |]. cbn.
    split; [split |].
    { replace (l1' ++ p :: n :: l2') with ((l1' ++ [p]) ++ n :: l2')
        by (by rewrite <- app_assoc).
      apply dllseg_app. exists (Some n). split.
      - apply (dllseg_set_next_last _ _ _ _ _ (Some this));
          [by rewrite lookup_insert_ne | |].
        + apply NoDup_app in Hnd1 as (_ & Hd & _).
          intros Hin. apply (Hd p Hin). left.
        + apply dllseg_insert_notin; [| done].
          intros Hin. apply (Hdisj n Hin). left.
      - rewrite last_or_snoc. apply dllseg_insert_notin.
        + intros Hin. apply (Hdisj p); [apply elem_of_app; right; left | done].
        + apply (dllseg_set_prev_head _ (Some this)); [done | |].
          * by apply NoDup_cons in Hnd2 as [? _].
          * cbn. split; [done |]. by exists on. }
    { rewrite !length_app. cbn. lia. }
    split; [done |]. split; [done |].
    split; [repeat constructor |].
    split; [by rewrite !lookup_insert_ne | done].
Qed.

(** ** The weak chain *)

Lemma weak_chain_frame wr wr' cur ws :
  (∀ a, a ∈ ws → wr' !! a = wr !! a) →
  weak_chain wr cur ws → weak_chain wr' cur ws.
Proof.
  revert cur. induction ws as [|a ws IH]; intros cur Hsame; cbn; [done |].
  intros (-> & r & Hr & Hch). split; [done |]. exists r.
  split; [rewrite Hsame; [done | left] |].
  apply IH; [| done]. intros b Hb. apply Hsame. by right.
Qed.

Lemma weak_chain_det wr cur ws1 ws2 :
  weak_chain wr cur ws1 → weak_chain wr cur ws2 → ws1 = ws2.
Proof.
  revert cur ws2. induction ws1 as [|a ws1 IH]; intros cur [|b ws2]; cbn.
  - done.
  - intros -> [? _]. done.
  - intros [-> _] ?. done.
  - intros (-> & r1 & Hr1 & H1) ([= <-] & r2 & Hr2 & H2).
    rewrite Hr1 in Hr2. injection Hr2 as <-. f_equal. by eapply IH.
Qed.

Lemma weak_chain_suffix wr cur ws1 ws2 :
  weak_chain wr cur (ws1 ++ ws2) → ∃ mid, weak_chain wr mid ws2.
Proof.
  revert cur. induction ws1 as [|a ws1 IH]; intros cur; cbn.
  - intros H. by exists cur.
  - intros (_ & r & _ & H). by eapply IH.
Qed.

Lemma weak_chain_head_fresh wr cur a ws :
  weak_chain wr cur (a :: ws) → a ∉ ws.
Proof.
  intros Hch Hin. apply list_elem_of_split in Hin as (ws1 & ws2 & ->).
  pose proof Hch as (-> & r & Hr & Htail).
  apply weak_chain_suffix in Htail as (mid & Hsub).
  pose proof Hsub as (-> & _).
  pose proof (weak_chain_det _ _ _ _ Hch Hsub) as Heq.
  apply (f_equal length) in Heq. cbn in Heq.
  rewrite length_app in Heq. cbn in Heq. lia.
Qed.

Lemma weak_chain_NoDup wr cur ws : weak_chain wr cur ws → NoDup ws.
Proof.
  revert cur. induction ws as [|a ws IH]; intros cur Hch; [constructor |].
  constructor; [by eapply weak_chain_head_fresh |].
  destruct Hch as (_ & r & _ & Hch). by eapply IH.
Qed.

Lemma clear_refs_notin ws wr a :
  a ∉ ws → clear_refs ws wr !! a = wr !! a.
Proof.
  revert wr. induction ws as [|b ws IH]; intros wr Ha; [done |].
  cbn. unfold clear_refs in IH. rewrite IH.
  - apply lookup_insert_ne. intros ->. apply Ha. left.
  - intros Hin. apply Ha. by right.
Qed.

Lemma clear_refs_in ws wr a :
  a ∈ ws → clear_refs ws wr !! a = Some null_ref.
Proof.
  revert wr. induction ws as [|b ws IH]; intros wr Ha; [by apply elem_of_nil in Ha |].
  cbn. destruct (decide (a ∈ ws)) as [Hin | Hnin].
  - by apply IH.
  - apply elem_of_cons in Ha as [-> | Ha]; [| done].
    fold (clear_refs ws (<[b:=null_ref]> wr)).
    rewrite clear_refs_notin by done. apply lookup_insert_eq.
Qed.

Lemma set_object_weak_refs_same o :
  set_object_weak_refs_ (object_weak_refs_ o) o = o.
Proof. by destruct o. Qed.

(** The invalidation loop terminates on a finite chain and leaves every
    node of the chain invalidated and the chain head null. *)
Lemma invalidate_weak_refs_run fuel this w o ws :
  objects w !! this = Some o →
  weak_chain (weak_refs w) (object_weak_refs_ o) ws →
  (length ws < fuel)%nat →
  invalidate_weak_refs fuel this w =
    (Ret tt,
     with_weak_refs (clear_refs ws (weak_refs w))
       (with_objects (<[this := set_object_weak_refs_ None o]> (objects w)) w)).
Proof.
  revert fuel w o. induction ws as [|a ws IH]; intros fuel w o Ho Hch Hfuel;
    (destruct fuel as [|fuel]; [cbn in Hfuel; lia |]).
  - cbn in Hch. cbn. run. rewrite Ho, Hch. cbn.
    rewrite <- Hch, set_object_weak_refs_same, insert_id by done.
    by destruct w.
  - pose proof (weak_chain_head_fresh _ _ _ _ Hch) as Hfresh.
    destruct Hch as (Hhead & r & Hr & Hch).
    destruct w as [mx first cnt time objs wrefs logs out tr]. cbn in *.
    cbn [invalidate_weak_refs]. run. rewrite Ho, Hhead. cbn.
    rewrite Hr. cbn. rewrite Ho. cbn. rewrite Hr. cbn.
    repeat (rewrite lookup_insert_eq; cbn). rewrite !insert_insert_eq.
    rewrite (IH fuel _ (set_object_weak_refs_ (next_ r) o)); cbn.
    + rewrite insert_insert_eq. reflexivity.
    + apply lookup_insert_eq.
    + cbn. eapply weak_chain_frame; [| done].
      intros b Hb. apply lookup_insert_ne. intros ->. done.
    + lia.
Qed.

(** ** The destructor *)

Lemma Object_dtor_release fuel this w o ws :
  objects w !! this = Some o →
  weak_chain (weak_refs w) (object_weak_refs_ o) ws →
  (length ws < fuel)%nat →
  Object_dtor false fuel this w =
    (Ret tt,
     with_weak_refs (clear_refs ws (weak_refs w))
       (with_objects (<[this := set_object_weak_refs_ None o]> (objects w)) w)).
Proof.
  intros Ho Hch Hfuel. unfold Object_dtor. unfold_monad.
  by rewrite (invalidate_weak_refs_run fuel this w o ws).
Qed.

Lemma Object_dtor_debug fuel this w o ws l1 l2 :
  registry_ok w (l1 ++ this :: l2) →
  object_list_mutex w = false →
  objects w !! this = Some o →
  weak_chain (weak_refs w) (object_weak_refs_ o) ws →
  (length ws < fuel)%nat →
  ∃ w' evs,
    Object_dtor true fuel this w = (Ret tt, w') ∧
    registry_ok w' (l1 ++ l2) ∧
    object_list_mutex w' = false ∧
    trace w' = trace w ++ evs ∧ under_lock evs = true ∧
    weak_refs w' = clear_refs ws (weak_refs w) ∧
    objects w' !! this = Some (set_object_weak_refs_ None o) ∧
    std_out w' = std_out w ++ dying_output (object_strong_ref_count_ o) ∧
    log_sink w' = log_sink w.
Proof.
  intros Hok Hmutex Ho Hch Hfuel.
  set (w0 := with_mutex true (with_trace (trace w ++ [EvLock]) w)).
  destruct (unlink_from_object_list_run this w0 l1 l2) as
    (w1 & evs & Hrun & Hok1 & Hmutex1 & Htrace1 & Hheld & Hthis1 & Hwr1
     & Hlog1 & Hout1); [done | done |].
  cbn in Htrace1, Hthis1, Hwr1, Hlog1, Hout1. rewrite Ho in Hthis1.
  set (w2 := with_std_out
               (std_out w1 ++ dying_output (object_strong_ref_count_ o)) w1).
  assert (Hprint :
    (if decide (object_strong_ref_count_ o ≠ 0)
     then printf dying_warning else mret tt) w1 = (Ret tt, w2)).
  { unfold w2, dying_output. case_decide; run; [done |].
    rewrite app_nil_r. by destruct w1. }
  assert (Hinv := invalidate_weak_refs_run fuel this w2 o ws).
  cbn in Hinv. rewrite Hwr1 in Hinv. specialize (Hinv Hthis1 Hch Hfuel).
  destruct (registry_ok_at w _ _ this Hok) as (_ & Hn1 & Hn2 & _).
  eexists _, (EvLock :: evs ++ [EvUnlock]).
  split.
  { unfold Object_dtor, lock_object_list_mutex, unlock_object_list_mutex,
      read, emit.
    unfold_monad. rewrite Hmutex. fold w0. rewrite Hrun, Hthis1, Hprint, Hinv.
    reflexivity. }
  cbn. destruct Hok1 as [Hseg1 Hcount1].
  split; [split; [| done] |].
  { apply dllseg_insert_notin; [| done].
    intros [?|?]%elem_of_app; done. }
  split; [done |].
  split; [by rewrite Htrace1, <- !app_assoc |].
  split; [by apply all_held_app |].
  split; [done |]. split; [apply lookup_insert_eq |].
  split; [by rewrite Hout1 | done].
Qed.

(** C1. When the destructor of an instance whose weak chain is [ws]
    completes, every node that was linked in the chain has a null referent
    and null [prev_]/[next_] links, the instance's chain head is null, and
    no other weak reference was touched. So reading the referent of a weak
    reference that was bound to the instance yields null afterwards. This
    holds in debug and in release builds (in debug builds the instance must
    be registered, as every constructed instance is). *)
Theorem Object_dtor_invalidates_weak_refs (BA_DEBUG_BUILD : bool)
    (fuel : nat) (this : addr) (w : World) (o : Object) (ws l1 l2 : list addr) :
  objects w !! this = Some o →
  weak_chain (weak_refs w) (object_weak_refs_ o) ws →
  (length ws < fuel)%nat →
  (BA_DEBUG_BUILD = true →
   registry_ok w (l1 ++ this :: l2) ∧ object_list_mutex w = false) →
  ∃ w' o',
    Object_dtor BA_DEBUG_BUILD fuel this w = (Ret tt, w') ∧
    (∀ r, r ∈ ws →
       weak_refs w' !! r =
         Some {| obj_ := None; prev_ := None; next_ := None |}) ∧
    (∀ r, r ∉ ws → weak_refs w' !! r = weak_refs w !! r) ∧
    objects w' !! this = Some o' ∧ object_weak_refs_ o' = None.
Proof.
  intros Ho Hch Hfuel Hreg. destruct BA_DEBUG_BUILD.
  - destruct Hreg as [Hok Hmutex]; [done |].
    destruct (Object_dtor_debug fuel this w o ws l1 l2 Hok Hmutex Ho Hch Hfuel)
      as (w' & evs & Hrun & _ & _ & _ & _ & Hwr & Hthis & _).
    exists w', (set_object_weak_refs_ None o). rewrite Hwr.
    split; [done |]. split; [intros r Hr; by apply clear_refs_in |].
    split; [intros r Hr; by apply clear_refs_notin | done].
  - rewrite (Object_dtor_release fuel this w o ws Ho Hch Hfuel).
    eexists _, (set_object_weak_refs_ None o). split; [reflexivity |]. cbn.
    split; [intros r Hr; by apply clear_refs_in |].
    split; [intros r Hr; by apply clear_refs_notin |].
    split; [apply lookup_insert_eq | done].
Qed.

(** C3, as amended. In a debug build the destructor of a registered
    instance completes whatever its strong count [N] is, and it prints the
    warning exactly when [N] is not zero (so, for a count of live references,
    exactly when [N > 0]); nothing goes to the log. In a release build the
    destructor completes and prints nothing, whatever [N] is. *)
Theorem Object_dtor_strong_count_warning (fuel : nat) (this : addr)
    (w : World) (o : Object) (ws l1 l2 : list addr) :
  objects w !! this = Some o →
  weak_chain (weak_refs w) (object_weak_refs_ o) ws →
  (length ws < fuel)%nat →
  (registry_ok w (l1 ++ this :: l2) → object_list_mutex w = false →
   ∃ w', Object_dtor true fuel this w = (Ret tt, w') ∧
         log_sink w' = log_sink w ∧
         (object_strong_ref_count_ o ≠ 0 →
            std_out w' = std_out w ++ [dying_warning]) ∧
         (object_strong_ref_count_ o = 0 → std_out w' = std_out w))
  ∧ (∃ w', Object_dtor false fuel this w = (Ret tt, w') ∧
           log_sink w' = log_sink w ∧ std_out w' = std_out w).
Proof.
  intros Ho Hch Hfuel. split.
  - intros Hok Hmutex.
    destruct (Object_dtor_debug fuel this w o ws l1 l2 Hok Hmutex Ho Hch Hfuel)
      as (w' & evs & Hrun & _ & _ & _ & _ & _ & _ & Hout & Hlog).
    exists w'. split; [done |]. split; [done |].
    rewrite Hout. unfold dying_output.
    split; intros HN; case_decide; try done. by rewrite app_nil_r.
  - rewrite (Object_dtor_release fuel this w o ws Ho Hch Hfuel).
    by eexists.
Qed.

(** C7. In a debug build, on a registry whose live list holds exactly [l]
    and whose live count is the length of [l]: constructing an instance at a
    fresh address [this] completes, puts [this] at the head of the live list
    and raises the count by one; destroying a registered instance [this]
    completes, removes exactly [this] from the list, keeps every other
    instance in its place and lowers the count by one. Both leave the
    invariant in force, and both make all their registry accesses between
    taking and releasing the registry lock. *)
Theorem registry_invariant_preserved (w : World) :
  object_list_mutex w = false →
  (∀ (i : ObjectInit) (this : addr) (l : list addr),
     registry_ok w l →
     objects w !! this = None →
     Z.of_nat (length l) < INT_MAX →
     ∃ w' evs,
       Object_ctor true i this w = (Ret tt, w') ∧
       registry_ok w' (this :: l) ∧
       object_list_first w' = Some this ∧
       object_count w' = object_count w + 1 ∧
       object_list_mutex w' = false ∧
       trace w' = trace w ++ evs ∧ under_lock evs = true)
  ∧ (∀ (fuel : nat) (this : addr) (o : Object) (ws l1 l2 : list addr),
       registry_ok w (l1 ++ this :: l2) →
       objects w !! this = Some o →
       weak_chain (weak_refs w) (object_weak_refs_ o) ws →
       (length ws < fuel)%nat →
       ∃ w' evs,
         Object_dtor true fuel this w = (Ret tt, w') ∧
         registry_ok w' (l1 ++ l2) ∧
         object_count w' = object_count w - 1 ∧
         object_list_mutex w' = false ∧
         trace w' = trace w ++ evs ∧ under_lock evs = true).
Proof.
  intros Hmutex. split.
  - intros i this l Hok Hfresh Hbound.
    destruct (Object_ctor_debug i this w l Hok Hfresh Hmutex Hbound)
      as (w' & o & evs & Hrun & Hok' & Hmutex' & Htrace & Hlock & _).
    exists w', evs. split; [done |]. split; [done |].
    destruct Hok as [_ Hc], Hok' as [Hseg' Hc'].
    split; [by destruct Hseg' as [-> _] |].
    split; [rewrite Hc, Hc'; cbn [length]; lia | done].
  - intros fuel this o ws l1 l2 Hok Ho Hch Hfuel.
    destruct (Object_dtor_debug fuel this w o ws l1 l2 Hok Hmutex Ho Hch Hfuel)
      as (w' & evs & Hrun & Hok' & Hmutex' & Htrace & Hlock & _).
    exists w', evs. split; [done |]. split; [done |].
    destruct Hok as [_ Hc], Hok' as [_ Hc'].
    split; [| done].
    rewrite Hc, Hc', !length_app. cbn [length]. lia.
Qed.

(** ** Binding the owner role on acquisition *)

(** The oracle's answer depends on the calling thread only. *)
Lemma GetCurrentThreadTag_answer th w1 w2 :
  (GetCurrentThreadTag th w1).1 = (GetCurrentThreadTag th w2).1.
Proof.
  unfold GetCurrentThreadTag. run.
  destruct (InMainThread th); [done |].
  destruct (InLogicThread th); [done |].
  destruct (InAudioThread th); [done |].
  destruct (InNetworkWriteThread th); [done |].
  destruct (InAssetsThread th); [done |].
  by destruct (InBGDynamicsThread th).
Qed.

Lemma ObjectUpdateForAcquire_unbound th this w o r :
  objects w !! this = Some o →
  thread_ownership_ o = kNextReferencing →
  owner_thread_ o = kInvalid →
  (GetCurrentThreadTag th w).1 = Ret r →
  ∃ w', ObjectUpdateForAcquire th this w = (Ret tt, w') ∧
        objects w' = <[this := set_owner_thread_ r o]> (objects w) ∧
        object_list_first w' = object_list_first w ∧
        object_count w' = object_count w ∧
        weak_refs w' = weak_refs w.
Proof.
  intros Ho Hmode Hown Hr.
  set (w1 := with_trace (trace w ++ [EvGetThreadOwnership]) w).
  rewrite (GetCurrentThreadTag_answer th w w1) in Hr.
  destruct (GetCurrentThreadTag_world th w1) as [evs Hw].
  destruct (GetCurrentThreadTag th w1) as [res w2] eqn:Hrun.
  cbn in Hr, Hw. subst res w2.
  unfold ObjectUpdateForAcquire, GetThreadOwnership, emit, read, write.
  unfold_monad. cbn. rewrite Ho. cbn. rewrite Hmode.
  rewrite decide_True by done. cbn. rewrite Ho. cbn. rewrite Hown.
  rewrite decide_True by done. fold w1. rewrite Hrun. cbn. rewrite Ho.
  by eexists.
Qed.

Lemma ObjectUpdateForAcquire_no_role th this w o :
  objects w !! this = Some o →
  thread_ownership_ o = kNextReferencing →
  owner_thread_ o = kInvalid →
  (∀ t, in_thread th t = false) →
  ∃ w', ObjectUpdateForAcquire th this w
        = (Abort (Thrown (unrecognized_thread th)), w') ∧
        objects w' = objects w.
Proof.
  intros Ho Hmode Hown Hnone.
  set (w1 := with_trace (trace w ++ [EvGetThreadOwnership]) w).
  pose proof (GetCurrentThreadTag_unrecognized th w1 Hnone) as Hr.
  destruct (GetCurrentThreadTag_world th w1) as [evs Hw].
  destruct (GetCurrentThreadTag th w1) as [res w2] eqn:Hrun.
  cbn in Hr, Hw. subst res w2.
  unfold ObjectUpdateForAcquire, GetThreadOwnership, emit, read, write.
  unfold_monad. cbn. rewrite Ho. cbn. rewrite Hmode.
  rewrite decide_True by done. cbn. rewrite Ho. cbn. rewrite Hown.
  rewrite decide_True by done. fold w1. rewrite Hrun. by eexists.
Qed.

Lemma ObjectUpdateForAcquire_bound th this w o :
  objects w !! this = Some o →
  owner_thread_ o ≠ kInvalid →
  ObjectUpdateForAcquire th this w =
    (Ret tt, with_trace (trace w ++ [EvGetThreadOwnership]) w).
Proof.
  intros Ho Hown.
  unfold ObjectUpdateForAcquire, GetThreadOwnership, emit, read, write.
  unfold_monad. cbn. rewrite Ho. cbn.
  case_decide; [| done]. cbn. rewrite Ho. cbn. by case_decide.
Qed.

Lemma acquire_all_bound ths this w o :
  objects w !! this = Some o →
  owner_thread_ o ≠ kInvalid →
  ∃ w', acquire_all ths this w = (Ret tt, w') ∧ objects w' = objects w.
Proof.
  intros Ho Hown. revert w Ho. induction ths as [|th ths IH]; intros w Ho.
  - by exists w.
  - cbn [acquire_all]. unfold_monad.
    rewrite (ObjectUpdateForAcquire_bound th this w o Ho Hown).
    destruct (IH (with_trace (trace w ++ [EvGetThreadOwnership]) w) Ho)
      as (w' & Hrun & Hobjs).
    by exists w'.
Qed.

(** C4. An instance under the next-referencing policy is unbound when its
    construction completes. Its first acquisition, made while it is still
    unbound by a thread whose current role is [r], binds it to [r], which is
    a valid role; an acquisition by a thread that has no role throws the
    oracle's exception and leaves the instance unbound. Once it is bound, no
    acquisition from any thread, and no sequence of them, changes the
    instance: the bound role stays. *)
Theorem next_referencing_binds_once (this : addr) (w : World) (o : Object) :
  objects w !! this = Some o →
  thread_ownership_ o = kNextReferencing →
  (∀ (i : ObjectInit) (p : addr) (l : list addr),
     init_thread_ownership i = kNextReferencing →
     registry_ok w l → objects w !! p = None →
     object_list_mutex w = false → Z.of_nat (length l) < INT_MAX →
     ∃ w' o', Object_ctor true i p w = (Ret tt, w') ∧
              objects w' !! p = Some o' ∧
              thread_ownership_ o' = kNextReferencing ∧
              owner_thread_ o' = kInvalid)
  ∧ (owner_thread_ o = kInvalid →
     ∀ (th : Thread) (r : ThreadTag),
       (GetCurrentThreadTag th w).1 = Ret r →
       r ≠ kInvalid ∧
       ∃ w', ObjectUpdateForAcquire th this w = (Ret tt, w') ∧
             objects w' = <[this := set_owner_thread_ r o]> (objects w))
  ∧ (owner_thread_ o = kInvalid →
     ∀ th : Thread,
       (∀ t, in_thread th t = false) →
       ∃ w', ObjectUpdateForAcquire th this w
             = (Abort (Thrown (unrecognized_thread th)), w') ∧
             objects w' = objects w)
  ∧ (owner_thread_ o ≠ kInvalid →
     (∀ th : Thread,
        ∃ w', ObjectUpdateForAcquire th this w = (Ret tt, w') ∧
              objects w' = objects w)
     ∧ (∀ ths : list Thread,
          ∃ w', acquire_all ths this w = (Ret tt, w') ∧
                objects w' = objects w)).
Proof.
  intros Ho Hmode. split; [| split; [| split]].
  - intros i p l Hi Hok Hfresh Hmutex Hbound.
    destruct (Object_ctor_debug i p w l Hok Hfresh Hmutex Hbound)
      as (w' & o' & evs & Hrun & _ & _ & _ & _ & Ho' & Hown & Hmode').
    exists w', o'. by rewrite Hmode', Hi.
  - intros Hown th r Hr. split.
    + intros ->. by apply GetCurrentThreadTag_ret in Hr.
    + destruct (ObjectUpdateForAcquire_unbound th this w o r Ho Hmode Hown Hr)
        as (w' & Hrun & Hobjs & _).
      by exists w'.
  - intros Hown th Hnone.
    by apply (ObjectUpdateForAcquire_no_role th this w o).
  - intros Hown. split.
    + intros th. rewrite (ObjectUpdateForAcquire_bound th this w o Ho Hown).
      by eexists.
    + intros ths. by apply (acquire_all_bound ths this w o).
Qed.

(** ** The order [std::sort] uses on (count, name) pairs *)

Lemma ascii_compare_refl a : Ascii.compare a a = Eq.
Proof. apply N.compare_refl. Qed.

Lemma string_compare_refl s : String.compare s s = Eq.
Proof. induction s as [|a s IH]; [done |]. cbn. by rewrite ascii_compare_refl. Qed.

Lemma string_compare_lt_trans a b c :
  String.compare a b = Lt → String.compare b c = Lt → String.compare a c = Lt.
Proof.
  revert b c. induction a as [|x a IH]; intros [|y b] [|z c]; cbn; try done.
  unfold Ascii.compare.
  destruct (N.compare_spec (Ascii.N_of_ascii x) (Ascii.N_of_ascii y)) as [Hxy|Hxy|Hxy];
    destruct (N.compare_spec (Ascii.N_of_ascii y) (Ascii.N_of_ascii z)) as [Hyz|Hyz|Hyz];
    try done; intros H1 H2.
  - rewrite Hxy, Hyz, N.compare_refl. by eapply IH.
  - rewrite Hxy. by rewrite (proj2 (N.compare_lt_iff _ _) Hyz).
  - rewrite <- Hyz. by rewrite (proj2 (N.compare_lt_iff _ _) Hxy).
  - by rewrite (proj2 (N.compare_lt_iff _ _) (N.lt_trans _ _ _ Hxy Hyz)).
Qed.

Lemma string_ltb_irrefl s : String.ltb s s = false.
Proof. unfold String.ltb. by rewrite string_compare_refl. Qed.

Lemma string_ltb_trans a b c :
  String.ltb a b = true → String.ltb b c = true → String.ltb a c = true.
Proof.
  unfold String.ltb. intros Hab Hbc.
  destruct (String.compare a b) eqn:E1; try done.
  destruct (String.compare b c) eqn:E2; try done.
  by rewrite (string_compare_lt_trans a b c).
Qed.

Lemma string_ltb_trichotomy a b :
  String.ltb a b = true ∨ a = b ∨ String.ltb b a = true.
Proof.
  unfold String.ltb. rewrite (String.compare_antisym b a).
  destruct (String.compare a b) eqn:E; cbn; [| by left | by right; right].
  right; left. by apply String.compare_eq_iff.
Qed.

Lemma pair_lt_irrefl p : ¬ pair_lt p p.
Proof.
  intros [H | [_ H]]; [lia |]. by rewrite string_ltb_irrefl in H.
Qed.

Lemma pair_lt_trans p q r : pair_lt p q → pair_lt q r → pair_lt p r.
Proof.
  unfold pair_lt. intros [H1 | [H1 H1']] [H2 | [H2 H2']].
  - left. lia.
  - left. lia.
  - left. lia.
  - right. split; [lia |]. by eapply string_ltb_trans.
Qed.

Lemma pair_lt_trichotomy p q : pair_lt p q ∨ p = q ∨ pair_lt q p.
Proof.
  destruct p as [n1 s1], q as [n2 s2]. unfold pair_lt. cbn.
  destruct (Z.lt_trichotomy n1 n2) as [H | [-> | H]]; [by left; left | | by right; right; left].
  destruct (string_ltb_trichotomy s1 s2) as [H | [-> | H]].
  - left. right. split; [lia | done].
  - right. by left.
  - right. right. right. split; [lia | done].
Qed.

Global Instance pair_le_total : Total pair_le.
Proof.
  intros p q. unfold pair_le.
  destruct (pair_lt_trichotomy p q) as [H | [-> | H]].
  - left. intros H'. apply (pair_lt_irrefl p). by eapply pair_lt_trans.
  - left. apply pair_lt_irrefl.
  - right. intros H'. apply (pair_lt_irrefl p). by eapply pair_lt_trans.
Qed.

Global Instance pair_le_trans : Transitive pair_le.
Proof.
  intros p q r Hpq Hqr Hrp. unfold pair_le in *.
  destruct (pair_lt_trichotomy p q) as [H | [-> | H]]; [| done | done].
  apply Hqr. by eapply pair_lt_trans.
Qed.

Global Instance descending_trans : Transitive descending.
Proof. intros p q r H1 H2. unfold descending in *. by eapply pair_lt_trans. Qed.

Global Instance descending_antisymm : AntiSymm (=) descending.
Proof.
  intros p q H1 H2. exfalso. apply (pair_lt_irrefl p).
  unfold descending in *. by eapply pair_lt_trans.
Qed.

Lemma descending_spec (p q : Z * string) :
  descending p q ↔ q.1 < p.1 ∨ (q.1 = p.1 ∧ String.ltb q.2 p.2 = true).
Proof.
  unfold descending, pair_lt. split.
  - intros [H | [H1 H2]]; [by left |].
    destruct (decide (q.1 = p.1)) as [Heq | Hne]; [by right |]. left. lia.
  - intros [H | [H1 H2]]; [by left |]. right. split; [lia | done].
Qed.

Lemma StronglySorted_strict {A} (R S : relation A) (l : list A) :
  (∀ x y, R x y → x ≠ y → S x y) →
  NoDup l → StronglySorted R l → StronglySorted S l.
Proof.
  intros HRS Hnd Hs. induction Hs as [|x l Hs IH Hall]; [constructor |].
  apply NoDup_cons in Hnd as [Hx Hnd]. constructor; [by apply IH |].
  rewrite Forall_forall in Hall |- *. intros y Hy.
  apply HRS; [by apply Hall |]. by intros ->.
Qed.

Lemma StronglySorted_reverse_flip {A} (R : relation A) (l : list A) :
  StronglySorted R l → StronglySorted (flip R) (reverse l).
Proof.
  induction 1 as [|x l Hs IH Hall]; [constructor |].
  rewrite reverse_cons. apply StronglySorted_app_2; [| done |].
  - intros y z Hy ->%list_elem_of_singleton.
    rewrite Forall_forall in Hall. apply Hall. by apply elem_of_reverse.
  - repeat constructor.
Qed.

(** [std::sort] on the reversed view leaves the vector in descending
    order. For distinct entries this determines the result: whatever order
    the map is iterated in and whichever algorithm sorts, the outcome is the
    same vector. *)
Lemma sort_reversed_spec v :
  NoDup v →
  sort_reversed v ≡ₚ v ∧ StronglySorted descending (sort_reversed v).
Proof.
  intros Hnd. unfold sort_reversed.
  assert (Hperm : reverse (merge_sort pair_le (reverse v)) ≡ₚ v).
  { by rewrite reverse_Permutation, merge_sort_Permutation, reverse_Permutation. }
  split; [done |].
  apply (StronglySorted_strict (flip pair_le)).
  - intros p q Hpq Hne. unfold descending, flip, pair_le in *.
    destruct (pair_lt_trichotomy p q) as [H | [-> | H]]; done.
  - by rewrite Hperm.
  - apply StronglySorted_reverse_flip. apply StronglySorted_merge_sort; apply _.
Qed.

Lemma sort_reversed_unique v v' :
  NoDup v → v' ≡ₚ v → StronglySorted descending v' → v' = sort_reversed v.
Proof.
  intros Hnd Hperm Hs. destruct (sort_reversed_spec v Hnd) as [Hperm' Hs'].
  apply (StronglySorted_unique descending); [done | done |].
  by rewrite Hperm, Hperm'.
Qed.

(** ** The census *)

Lemma occurrences_cons x y names :
  occurrences x (y :: names) =
    (if decide (y = x) then 1 else 0) + occurrences x names.
Proof.
  unfold occurrences. rewrite filter_cons. case_decide; cbn [length]; lia.
Qed.

Lemma occurrences_nonneg x names : 0 ≤ occurrences x names.
Proof. unfold occurrences. lia. Qed.

Lemma tally_lookup names m x :
  tally names m !! x =
    if decide (occurrences x names = 0) then m !! x
    else Some (default 0 (m !! x) + occurrences x names).
Proof.
  revert m. induction names as [|y names IH]; intros m; [done |].
  cbn [tally foldl]. fold (tally names (tally_one m y)). rewrite IH.
  rewrite occurrences_cons. pose proof (occurrences_nonneg x names) as Hnn.
  unfold tally_one. destruct (decide (y = x)) as [-> | Hne].
  - rewrite (decide_False (P := 1 + _ = 0)) by lia.
    destruct (m !! x) as [n|] eqn:Hm; rewrite lookup_insert_eq; cbn;
      case_decide; f_equal; lia.
  - destruct (m !! y) as [n|] eqn:Hm; rewrite lookup_insert_ne by done;
      cbn; repeat case_decide; try lia; done.
Qed.

Lemma tally_loop_run l :
  ∀ fuel w prev cur count obj_map,
    dllseg (objects w) prev cur l None →
    object_list_mutex w = true →
    (length l < fuel)%nat →
    0 ≤ count →
    count + Z.of_nat (length l) ≤ INT_MAX →
    (∀ x n, obj_map !! x = Some n → n ≤ count) →
    ∃ evs,
      tally_loop fuel cur count obj_map w =
        (Ret (count + Z.of_nat (length l),
              tally (type_names (objects w) l) obj_map),
         with_trace (trace w ++ evs) w)
      ∧ held_accesses evs.
Proof.
  induction l as [|a l IH];
    intros fuel w prev cur count obj_map Hseg Hmutex Hfuel Hc Hmax Hvals;
    (destruct fuel as [|fuel]; [cbn in Hfuel; lia |]);
    destruct w as [mx first cnt time objs wrefs logs out tr]; cbn in *; subst.
  - exists []. split; [| constructor]. unfold_monad.
    by rewrite app_nil_r, Z.add_0_r.
  - destruct Hseg as (-> & o & Ho & _ & Hseg).
    unfold int_incr. rewrite decide_True by lia. run. rewrite Ho. cbn.
    set (count' := count + 1).
    set (m' := tally_one obj_map (type_name o)).
    destruct (IH fuel
                {| object_list_mutex := true; object_list_first := first;
                   object_count := cnt; real_time := time; objects := objs;
                   weak_refs := wrefs; log_sink := logs; std_out := out;
                   trace := tr ++ [EvRegistry true] |}
                (Some a) (object_next_ o) count' m') as (evs & Hrun & Hheld);
      [done | done | lia | lia | lia | |].
    { intros x n. unfold m', tally_one, count'.
      destruct (obj_map !! type_name o) as [k|] eqn:Hk;
        (destruct (decide (type_name o = x)) as [<- | Hne];
         [rewrite lookup_insert_eq; intros [= <-]
         | rewrite lookup_insert_ne by done; intros Hx; apply Hvals in Hx]);
        try lia.
      apply Hvals in Hk. lia. }
    exists (EvRegistry true :: evs). split; [| by constructor].
    unfold with_trace in Hrun |- *. cbn in Hrun |- *.
    rewrite <- app_assoc in Hrun. cbn in Hrun.
    assert (Hlen : count' + Z.of_nat (length l)
                   = count + Z.pos (Pos.of_succ_nat (length l)))
      by (unfold count'; lia).
    rewrite Hlen in Hrun.
    unfold tally, type_names in Hrun |- *. cbn [fmap list_fmap foldl].
    unfold m', tally_one in Hrun.
    destruct (obj_map !! type_name o) as [k|] eqn:Hk; cbn.
    + unfold int_incr. rewrite decide_True by (apply Hvals in Hk; lia).
      cbn. rewrite Ho. cbn. etrans; [exact Hrun |].
      subst m'. unfold tally_one. by rewrite Hk.
    + rewrite Ho. cbn. etrans; [exact Hrun |].
      subst m'. unfold tally_one. by rewrite Hk.
Qed.

Global Instance total_Permutation : Proper ((≡ₚ) ==> (=)) total.
Proof.
  intros l1 l2 H. induction H as [| x l1 l2 _ IH | x y l | l1 l2 l3 _ IH1 _ IH2];
    unfold total in *; cbn [foldr]; [done | by rewrite IH | lia | by rewrite IH1].
Qed.

Lemma entries_NoDup m : NoDup (entries m).
Proof.
  unfold entries. apply NoDup_fmap_2_strong; [| apply NoDup_map_to_list].
  intros [a b] [c d] _ _ [= -> ->]. done.
Qed.

Lemma elem_of_entries m n name : (n, name) ∈ entries m ↔ m !! name = Some n.
Proof.
  unfold entries. rewrite list_elem_of_fmap. split.
  - intros ([a b] & [= -> ->] & H). by apply elem_of_map_to_list in H.
  - intros H. exists (name, n). split; [done |]. by apply elem_of_map_to_list.
Qed.

Lemma total_entries_insert_None m name n :
  m !! name = None → total (entries (<[name := n]> m)) = n + total (entries m).
Proof.
  intros H. unfold entries. by rewrite map_to_list_insert.
Qed.

Lemma total_entries_insert_Some m name n k :
  m !! name = Some k →
  total (entries (<[name := n]> m)) = n - k + total (entries m).
Proof.
  intros H. rewrite <- (insert_delete_eq m name n).
  rewrite total_entries_insert_None by apply lookup_delete_eq.
  unfold entries at 2. rewrite <- (map_to_list_delete m name k H).
  rewrite fmap_cons. unfold total, entries. cbn [foldr fst snd]. lia.
Qed.

Lemma total_entries_tally names m :
  total (entries (tally names m)) =
    total (entries m) + Z.of_nat (length names).
Proof.
  revert m. induction names as [|y names IH]; intros m; [cbn; lia |].
  cbn [tally foldl]. fold (tally names (tally_one m y)). rewrite IH.
  unfold tally_one. destruct (m !! y) as [k|] eqn:Hk.
  - rewrite (total_entries_insert_Some m y (k + 1) k Hk). cbn [length]. lia.
  - rewrite (total_entries_insert_None m y 1 Hk). cbn [length]. lia.
Qed.

Lemma census_groups_spec names :
  (∀ n name, (n, name) ∈ census_groups names ↔
             n = occurrences name names ∧ 0 < n)
  ∧ StronglySorted descending (census_groups names)
  ∧ total (census_groups names) = Z.of_nat (length names).
Proof.
  destruct (sort_reversed_spec (entries (tally names ∅)) (entries_NoDup _))
    as [Hperm Hsorted].
  split; [| split; [done |]].
  - intros n name. unfold census_groups. rewrite Hperm, elem_of_entries.
    rewrite tally_lookup, lookup_empty. cbn.
    pose proof (occurrences_nonneg name names).
    case_decide; split; try done.
    + intros [-> ?]. lia.
    + intros [= <-]. lia.
    + by intros [-> _].
  - unfold census_groups. rewrite Hperm, total_entries_tally.
    unfold entries. by rewrite map_to_list_empty.
Qed.

Lemma LsObjects_debug fuel w l :
  registry_ok w l →
  object_list_mutex w = false →
  (length l < fuel)%nat →
  Z.of_nat (length l) ≤ INT_MAX →
  ∃ w' evs,
    LsObjects true fuel w = (Ret tt, w') ∧
    log_sink w' =
      log_sink w ++
      [(kInfo, census_report (object_count w) (real_time w)
                 (census_groups (type_names (objects w) l)))] ∧
    trace w' = trace w ++ evs ∧ under_lock evs = true ∧
    object_list_mutex w' = false ∧
    object_list_first w' = object_list_first w ∧
    object_count w' = object_count w ∧
    objects w' = objects w ∧ std_out w' = std_out w.
Proof.
  intros [Hseg Hcount] Hmutex Hfuel Hmax.
  destruct w as [mx first cnt time objs wrefs logs out tr]. cbn in *. subst mx.
  unfold LsObjects. run.
  match goal with
  | |- context [tally_loop fuel first 0 ∅ ?W] =>
    destruct (tally_loop_run l fuel W None first 0 ∅)
      as (evs & Hrun & Hheld); [done | done | done | done | lia | done |]
  end.
  rewrite Hrun. cbn. rewrite decide_True by lia. cbn.
  rewrite <- !app_assoc. cbn.
  eexists _, _. split; [reflexivity |]. cbn.
  split; [done |]. split; [done |].
  split; [| done].
  cbn. rewrite all_held_app by done. done.
Qed.

(** ** Concrete worlds *)

Ltac solve_dllseg :=
  vm_compute;
  repeat first [ reflexivity
               | split
               | eexists ].

(** The live list of [abc_world], newest instance first. *)
Lemma abc_world_registry_ok : registry_ok abc_world [7; 6; 5; 4; 3; 2; 1]%N.
Proof. split; [solve_dllseg | reflexivity]. Qed.

(** C2. In a debug build, on a registry whose live list holds exactly [l],
    [LsObjects] takes the registry lock, makes all its registry accesses
    while holding it, releases it, and logs one report at info level: the
    live count, the time, then one line per group. The groups are exactly
    the type names that occur among the live instances, each with the number
    of live instances of that type; they are in descending order of
    (count, name), so larger counts come first and equal counts are ordered
    by name, later names first; that order leaves no choice (any descending
    arrangement of the same groups is this one); and the counts add up to
    the live count. In particular, for live instances of types A (3), B (1)
    and C (3) the report lists C, then A, then B under a total of 7. *)
Theorem LsObjects_census :
  (∀ (fuel : nat) (w : World) (l : list addr),
     registry_ok w l →
     object_list_mutex w = false →
     (length l < fuel)%nat →
     Z.of_nat (length l) ≤ INT_MAX →
     ∃ w' groups evs,
       LsObjects true fuel w = (Ret tt, w') ∧
       log_sink w' =
         log_sink w ++
         [(kInfo, census_report (object_count w) (real_time w) groups)] ∧
       trace w' = trace w ++ evs ∧ under_lock evs = true ∧
       (∀ n name, (n, name) ∈ groups ↔
                  n = occurrences name (type_names (objects w) l) ∧ 0 < n) ∧
       StronglySorted descending groups ∧
       (∀ groups', groups' ≡ₚ groups → StronglySorted descending groups' →
                   groups' = groups) ∧
       total groups = object_count w ∧
       object_count w = Z.of_nat (length l))
  ∧ (∀ p q : Z * string,
       descending p q ↔
       q.1 < p.1 ∨ (q.1 = p.1 ∧ String.ltb q.2 p.2 = true))
  ∧ (type_names (objects abc_world) [7; 6; 5; 4; 3; 2; 1]%N
       = ["A"; "C"; "C"; "A"; "B"; "C"; "A"]
     ∧ LsObjects true 8 abc_world
       = (Ret tt,
          with_log_sink [(kInfo, abc_report)]
            (with_trace (trace abc_world ++
                         EvLock :: replicate 10 (EvRegistry true) ++ [EvUnlock])
               abc_world))).
Proof.
  split.
  - intros fuel w l Hok Hmutex Hfuel Hmax.
    destruct (LsObjects_debug fuel w l Hok Hmutex Hfuel Hmax)
      as (w' & evs & Hrun & Hlog & Htrace & Hlock & _).
    destruct (census_groups_spec (type_names (objects w) l))
      as (Hmem & Hsorted & Htotal).
    exists w', (census_groups (type_names (objects w) l)), evs.
    split; [done |]. split; [done |]. split; [done |]. split; [done |].
    split; [done |]. split; [done |].
    destruct Hok as [_ Hcount].
    split; [| split; [| done]].
    + intros groups' Hperm Hs.
      apply (StronglySorted_unique descending); done.
    + rewrite Htotal, Hcount. unfold type_names. by rewrite length_fmap.
  - split; [exact descending_spec |]. split; vm_compute; reflexivity.
Qed.

(** ** [MeshData] destruction *)

(** C8, as amended. [MeshData] names no base class, so destroying one runs
    its own destructor body only. That body logs an error exactly when the
    renderer data is still there; when it was unloaded first nothing is
    logged. Either way nothing is printed by the object core: the standard
    output, the registry and the weak references are left as they were. *)
Theorem MeshData_dtor_diagnostic (m : MeshData) (w : World) :
  ∃ w', MeshData_dtor m w = (Ret tt, w') ∧
        log_sink w' =
          log_sink w ++
          (if decide (renderer_data_ m = None) then []
           else [(kError, mesh_data_error)]) ∧
        std_out w' = std_out w ∧ objects w' = objects w ∧
        weak_refs w' = weak_refs w ∧ object_count w' = object_count w ∧
        object_list_first w' = object_list_first w.
Proof.
  unfold MeshData_dtor. destruct (renderer_data_ m); run.
  - by eexists.
  - exists w. by rewrite app_nil_r.
Qed.

(** C8 as it was stated fails: destroying a [MeshData] whose renderer data
    is still loaded does not make the object core print its destructor-time
    diagnostic; the error comes from [MeshData]'s own destructor and goes to
    the log. *)
Lemma MeshData_dtor_loaded_no_core_warning :
  renderer_data_ loaded_mesh ≠ None
  ∧ MeshData_dtor loaded_mesh empty_world
    = (Ret tt, with_log_sink [(kError, mesh_data_error)] empty_world)
  ∧ dying_warning ∉ std_out (MeshData_dtor loaded_mesh empty_world).2.
Proof.
  split; [done |]. split; [reflexivity |]. cbn. apply not_elem_of_nil.
Qed.

(** ** Counterexamples *)

(** C5 as it was stated fails: an instance whose checks are switched off is
    accessed from the audio thread although its required role is the logic
    role, and the check returns without raising anything. *)
Lemma ObjectThreadCheck_disabled_wrong_thread :
  required_role opted_out_object = kLogic
  ∧ (GetCurrentThreadTag audio_thread (single_world opted_out_object)).1
    = Ret kAudio
  ∧ ObjectThreadCheck hex_ptr audio_thread 1 (single_world opted_out_object)
    = (Ret tt, single_world opted_out_object).
Proof. split; [done |]. split; reflexivity. Qed.

(** C10 as it was stated fails: an unbound next-referencing instance whose
    checks are switched off is checked without any exception. *)
Lemma ObjectThreadCheck_disabled_unbound :
  thread_ownership_ opted_out_unbound_object = kNextReferencing
  ∧ owner_thread_ opted_out_unbound_object = kInvalid
  ∧ ObjectThreadCheck hex_ptr logic_thread 1
      (single_world opted_out_unbound_object)
    = (Ret tt, single_world opted_out_unbound_object).
Proof. split; [done |]. split; reflexivity. Qed.

(** C3 as it was stated fails: in a release build an instance that still
    has two strong references is destroyed without any diagnostic. *)
Lemma Object_dtor_release_silent :
  0 < object_strong_ref_count_ held_object
  ∧ Object_dtor false 1 1 (single_world held_object)
    = (Ret tt, single_world held_object)
  ∧ std_out (single_world held_object) = []
  ∧ log_sink (single_world held_object) = [].
Proof. split; [done |]. split; [| done]. vm_compute. reflexivity. Qed.

(** ** The theorems at concrete inputs *)

Ltac solve_chain :=
  vm_compute; repeat first [ reflexivity | split | eexists ].

(** A single unlinked instance forms a well-formed registry. *)
Lemma single_world_registry_ok o :
  object_prev_ o = None → object_next_ o = None →
  registry_ok (single_world o) ([] ++ 1%N :: []).
Proof.
  intros Hp Hn. split; [| done]. cbn. split; [done |]. exists o.
  by rewrite lookup_singleton_eq.
Qed.

(** The destructor of the instance of [weak_world] invalidates both of its
    weak references. *)
Lemma Object_dtor_invalidates_weak_refs_witness :
  ∃ w' o',
    Object_dtor true 3 1 weak_world = (Ret tt, w') ∧
    (∀ r, r ∈ [10%N; 11%N] →
       weak_refs w' !! r =
         Some {| obj_ := None; prev_ := None; next_ := None |}) ∧
    (∀ r, r ∉ [10%N; 11%N] → weak_refs w' !! r = weak_refs weak_world !! r) ∧
    objects w' !! 1%N = Some o' ∧ object_weak_refs_ o' = None.
Proof.
  apply (Object_dtor_invalidates_weak_refs true 3 1 weak_world weak_object
           [10%N; 11%N] [] []).
  - reflexivity.
  - solve_chain.
  - cbn. lia.
  - intros _. split; [| reflexivity].
    by apply (single_world_registry_ok weak_object).
Defined.

(** A debug-build destructor warns about two outstanding strong references
    and is silent about none. *)
Lemma Object_dtor_strong_count_warning_witness :
  (∃ w', Object_dtor true 1 1 (single_world held_object) = (Ret tt, w') ∧
         std_out w' = [dying_warning])
  ∧ (∃ w', Object_dtor true 1 1 (single_world logic_object) = (Ret tt, w') ∧
           std_out w' = []).
Proof.
  split.
  - destruct (Object_dtor_strong_count_warning 1 1 (single_world held_object)
                held_object [] [] [] eq_refl eq_refl) as [Hdebug _];
      [cbn; lia |].
    destruct Hdebug as (w' & Hrun & _ & Hwarn & _);
      [by apply (single_world_registry_ok held_object) | reflexivity |].
    exists w'. split; [exact Hrun |]. by apply Hwarn.
  - destruct (Object_dtor_strong_count_warning 1 1 (single_world logic_object)
                logic_object [] [] [] eq_refl eq_refl) as [Hdebug _];
      [cbn; lia |].
    destruct Hdebug as (w' & Hrun & _ & _ & Hquiet);
      [by apply (single_world_registry_ok logic_object) | reflexivity |].
    exists w'. split; [exact Hrun |]. by apply Hquiet.
Defined.

(** The audio thread binds an unbound instance to the audio role, and three
    later acquisitions from other threads leave it bound to that role. *)
Lemma next_referencing_binds_once_witness :
  (∃ w', ObjectUpdateForAcquire audio_thread 1 (single_world unbound_object)
         = (Ret tt, w') ∧
         objects w' = {[1%N := bound_object]})
  ∧ (∃ w', acquire_all [logic_thread; stray_thread; audio_thread] 1
             (single_world bound_object) = (Ret tt, w') ∧
           objects w' = {[1%N := bound_object]}).
Proof.
  split.
  - destruct (next_referencing_binds_once 1 (single_world unbound_object)
                unbound_object eq_refl eq_refl) as (_ & Hbind & _).
    destruct (Hbind eq_refl audio_thread kAudio eq_refl)
      as (_ & w' & Hrun & Hobjs).
    exists w'. split; [exact Hrun |]. rewrite Hobjs. vm_compute. reflexivity.
  - destruct (next_referencing_binds_once 1 (single_world bound_object)
                bound_object eq_refl eq_refl) as (_ & _ & _ & Hkeep).
    destruct Hkeep as [_ Hall]; [discriminate |].
    destruct (Hall [logic_thread; stray_thread; audio_thread])
      as (w' & Hrun & Hobjs).
    exists w'. split; [exact Hrun | exact Hobjs].
Defined.

(** An instance of a type that keeps the default role is refused to the
    audio thread and granted to the logic thread; an instance of a type
    whose default role is the audio role is granted to the audio thread and
    refused to the logic thread. *)
Lemma ObjectThreadCheck_valid_role_witness :
  (ObjectThreadCheck hex_ptr audio_thread 1 (single_world logic_object)).1
    = Abort (Thrown (MkException (Some
        "ObjectThreadCheck failed for <Node object at 0x1>; expected Logic thread; got audio")))
  ∧ (ObjectThreadCheck hex_ptr logic_thread 1 (single_world logic_object)).1
    = Ret tt
  ∧ (ObjectThreadCheck hex_ptr audio_thread 1
       (single_world audio_default_object)).1
    = Ret tt
  ∧ (ObjectThreadCheck hex_ptr logic_thread 1
       (single_world audio_default_object)).1
    = Abort (Thrown (MkException (Some
        "ObjectThreadCheck failed for <Sound object at 0x1>; expected Audio thread; got logic"))).
Proof.
  split; [| split; [| split]].
  - destruct (ObjectThreadCheck_valid_role hex_ptr audio_thread 1 logic_object
                (single_world logic_object) eq_refl eq_refl)
      as (_ & _ & _ & Hfail & _); [discriminate |].
    destruct (Hfail eq_refl) as [Hthrown _]. exact Hthrown.
  - destruct (ObjectThreadCheck_valid_role hex_ptr logic_thread 1 logic_object
                (single_world logic_object) eq_refl eq_refl)
      as (_ & _ & Hpass & _); [discriminate |].
    rewrite (Hpass eq_refl). reflexivity.
  - destruct (ObjectThreadCheck_valid_role hex_ptr audio_thread 1
                audio_default_object (single_world audio_default_object)
                eq_refl eq_refl)
      as (_ & _ & Hpass & _); [discriminate |].
    rewrite (Hpass eq_refl). reflexivity.
  - destruct (ObjectThreadCheck_valid_role hex_ptr logic_thread 1
                audio_default_object (single_world audio_default_object)
                eq_refl eq_refl)
      as (_ & _ & _ & Hfail & _); [discriminate |].
    destruct (Hfail eq_refl) as [Hthrown _]. exact Hthrown.
Defined.

(** An instance that opted out is not checked at all. *)
Lemma ObjectThreadCheck_opt_out_witness :
  ObjectThreadCheck hex_ptr audio_thread 1 (single_world opted_out_object)
    = (Ret tt, single_world opted_out_object).
Proof.
  apply (ObjectThreadCheck_opt_out hex_ptr audio_thread 1 opted_out_object);
    reflexivity.
Defined.

(** An unbound next-referencing instance cannot be checked, even from the
    logic thread. *)
Lemma ObjectThreadCheck_unbound_witness :
  ObjectThreadCheck hex_ptr logic_thread 1 (single_world unbound_object)
    = (Abort (Thrown (MkException None)),
       with_trace [EvGetThreadOwnership] (single_world unbound_object)).
Proof.
  apply (ObjectThreadCheck_unbound hex_ptr logic_thread 1 unbound_object);
    reflexivity.
Defined.

(** The oracle refuses a thread without a role and names the audio thread. *)
Lemma GetCurrentThreadTag_oracle_witness :
  (GetCurrentThreadTag stray_thread empty_world).1
    = Abort (Thrown (MkException (Some "unrecognized thread: worker")))
  ∧ (GetCurrentThreadTag audio_thread empty_world).1 = Ret kAudio.
Proof.
  destruct (GetCurrentThreadTag_oracle stray_thread empty_world)
    as (Hstray & _).
  destruct (GetCurrentThreadTag_oracle audio_thread empty_world)
    as (_ & Haudio & _).
  split.
  - apply Hstray. intros t. destruct t; reflexivity.
  - apply (Haudio kAudio); [reflexivity |].
    intros t. destruct t; cbn; intros H; first [reflexivity | discriminate H].
Defined.

(** An eighth instance is added to [abc_world], and the instance at address
    4 is removed from it. *)
Lemma registry_invariant_preserved_witness :
  (∃ w' evs,
     Object_ctor true (init_of "D") 8 abc_world = (Ret tt, w') ∧
     registry_ok w' [8; 7; 6; 5; 4; 3; 2; 1]%N ∧
     object_list_first w' = Some 8%N ∧ object_count w' = 8 ∧
     object_list_mutex w' = false ∧
     trace w' = trace abc_world ++ evs ∧ under_lock evs = true)
  ∧ (∃ w' evs,
       Object_dtor true 1 4 abc_world = (Ret tt, w') ∧
       registry_ok w' [7; 6; 5; 3; 2; 1]%N ∧
       object_count w' = 6 ∧
       object_list_mutex w' = false ∧
       trace w' = trace abc_world ++ evs ∧ under_lock evs = true).
Proof.
  destruct (registry_invariant_preserved abc_world eq_refl) as [Hctor Hdtor].
  split.
  - apply (Hctor (init_of "D") 8%N [7; 6; 5; 4; 3; 2; 1]%N).
    + exact abc_world_registry_ok.
    + vm_compute. reflexivity.
    + vm_compute. reflexivity.
  - destruct (Hdtor 1%nat 4%N
                (default (fresh_object (init_of "A"))
                   (objects abc_world !! 4%N))
                [] [7; 6; 5]%N [3; 2; 1]%N)
      as (w' & evs & H); [exact abc_world_registry_ok | | | | ].
    + vm_compute. reflexivity.
    + reflexivity.
    + cbn. lia.
    + exists w', evs. exact H.
Defined.

(** The census of [abc_world]. *)
Lemma LsObjects_census_witness :
  ∃ w' groups evs,
    LsObjects true 8 abc_world = (Ret tt, w') ∧
    log_sink w' =
      log_sink abc_world ++
      [(kInfo, census_report (object_count abc_world) (real_time abc_world)
                 groups)] ∧
    trace w' = trace abc_world ++ evs ∧ under_lock evs = true ∧
    (∀ n name, (n, name) ∈ groups ↔
               n = occurrences name
                     (type_names (objects abc_world) [7; 6; 5; 4; 3; 2; 1]%N)
               ∧ 0 < n) ∧
    StronglySorted descending groups ∧
    (∀ groups', groups' ≡ₚ groups → StronglySorted descending groups' →
                groups' = groups) ∧
    total groups = object_count abc_world ∧
    object_count abc_world = Z.of_nat (length [7; 6; 5; 4; 3; 2; 1]%N).
Proof.
  apply (proj1 LsObjects_census 8%nat abc_world [7; 6; 5; 4; 3; 2; 1]%N).
  - exact abc_world_registry_ok.
  - reflexivity.
  - cbn. lia.
  - vm_compute. discriminate.
Defined.

(** * Further properties *)

(** ** Relations kept by computations *)

Lemma keeps_bind {A B} (R : World → World → Prop) `{!PreOrder R}
    (m : M A) (f : A → M B) :
  keeps R m → (∀ a, keeps R (f a)) → keeps R (m ≫= f).
Proof.
  intros Hm Hf w. unfold mbind, M_bind, bind. specialize (Hm w).
  destruct (m w) as [[a | r] w1]; cbn in *; [| done].
  etrans; [exact Hm | apply Hf].
Qed.

Lemma keeps_ret {A} (R : World → World → Prop) `{!Reflexive R} (a : A) :
  keeps R (mret a).
Proof. intros w. done. Qed.

Lemma keeps_fail {A} (R : World → World → Prop) `{!Reflexive R} (r : abort) :
  keeps R (fail r : M A).
Proof. intros w. done. Qed.

Lemma keeps_gets {A} (R : World → World → Prop) `{!Reflexive R}
    (f : World → A) :
  keeps R (gets f).
Proof. intros w. done. Qed.

Lemma keeps_modify (R : World → World → Prop) (f : World → World) :
  (∀ w, R w (f w)) → keeps R (modify f).
Proof. intros Hf w. apply Hf. Qed.

Global Instance same_payload_equiv : Equivalence same_payload.
Proof.
  unfold same_payload. split.
  - by intros o.
  - by intros o o' H.
  - intros o1 o2 o3 H1 H2. by rewrite H1.
Qed.

Global Instance others_kept_preorder this : PreOrder (others_kept this).
Proof.
  split.
  - intros w. split; [| done]. intros a Ha. reflexivity.
  - intros w1 w2 w3 [H1 Hc1] [H2 Hc2]. split; [| congruence].
    intros a Ha. etrans; [by apply H1 | by apply H2].
Qed.

Global Instance only_traced_preorder : PreOrder only_traced.
Proof.
  split.
  - intros w. exists []. rewrite app_nil_r. by destruct w.
  - intros w1 w2 w3 [evs1 ->] [evs2 ->]. exists (evs1 ++ evs2).
    cbn. by rewrite app_assoc.
Qed.

Lemma others_kept_objects this w w' :
  objects w' = objects w → real_time w' = real_time w →
  others_kept this w w'.
Proof. intros H Hc. split; [| done]. intros a Ha. rewrite H. reflexivity. Qed.

Lemma others_kept_insert_this this w w' o :
  objects w' = <[this := o]> (objects w) → real_time w' = real_time w →
  others_kept this w w'.
Proof.
  intros H Hc. split; [| done]. intros a Ha.
  rewrite H, lookup_insert_ne by done. reflexivity.
Qed.

Lemma others_kept_insert_links this w w' p o o' :
  objects w !! p = Some o → same_payload o o' →
  objects w' = <[p := o']> (objects w) → real_time w' = real_time w →
  others_kept this w w'.
Proof.
  intros Ho Hsame H Hc. split; [| done]. intros a Ha. rewrite H.
  destruct (decide (p = a)) as [-> | Hne].
  - rewrite lookup_insert_eq, Ho. by constructor.
  - rewrite lookup_insert_ne by done. reflexivity.
Qed.

Lemma same_payload_set_prev v o : same_payload o (set_object_prev_ v o).
Proof. done. Qed.

Lemma same_payload_set_next v o : same_payload o (set_object_next_ v o).
Proof. done. Qed.

(** Primitives that leave the stored instances alone. *)
Ltac keeps_objects :=
  intros w; unfold_prims; unfold_monad; cbn;
  repeat case_match; cbn;
  first [ by apply others_kept_objects
        | by eapply others_kept_insert_this
        | reflexivity ].

Section OthersKept.

Variable this : addr.

Lemma keeps_read {A} p (field : Object → A) :
  keeps (others_kept this) (read p field).
Proof. keeps_objects. Qed.

Lemma keeps_read_link {A} p (field : Object → A) :
  keeps (others_kept this) (read_link p field).
Proof. keeps_objects. Qed.

Lemma keeps_write_this upd : keeps (others_kept this) (write this upd).
Proof. keeps_objects. Qed.

Lemma keeps_write_link_this upd :
  keeps (others_kept this) (write_link this upd).
Proof. keeps_objects. Qed.

Lemma keeps_write_link p upd :
  (∀ o, same_payload o (upd o)) →
  keeps (others_kept this) (write_link p upd).
Proof.
  intros Hupd w. unfold_prims. unfold_monad. cbn.
  destruct (objects w !! p) as [o|] eqn:Ho; cbn.
  - by eapply (others_kept_insert_links this w _ p o (upd o)).
  - by apply others_kept_objects.
Qed.

Lemma keeps_wread {A} p (field : WeakRefBase → A) :
  keeps (others_kept this) (wread p field).
Proof. keeps_objects. Qed.

Lemma keeps_wwrite p upd : keeps (others_kept this) (wwrite p upd).
Proof. keeps_objects. Qed.

Lemma keeps_get_first : keeps (others_kept this) get_object_list_first.
Proof. keeps_objects. Qed.

Lemma keeps_put_first v : keeps (others_kept this) (put_object_list_first v).
Proof. keeps_objects. Qed.

Lemma keeps_get_count : keeps (others_kept this) get_object_count.
Proof. keeps_objects. Qed.

Lemma keeps_put_count v : keeps (others_kept this) (put_object_count v).
Proof. keeps_objects. Qed.

Lemma keeps_lock : keeps (others_kept this) lock_object_list_mutex.
Proof. keeps_objects. Qed.

Lemma keeps_unlock : keeps (others_kept this) unlock_object_list_mutex.
Proof. keeps_objects. Qed.

Lemma keeps_printf s : keeps (others_kept this) (printf s).
Proof. keeps_objects. Qed.

Lemma keeps_GetRealTime : keeps (others_kept this) GetRealTime.
Proof. keeps_objects. Qed.

Lemma keeps_int_incr x : keeps (others_kept this) (int_incr x).
Proof. unfold int_incr. keeps_objects. Qed.

Lemma keeps_int_decr x : keeps (others_kept this) (int_decr x).
Proof. unfold int_decr. keeps_objects. Qed.

(** One step through a computation built from those primitives. *)
Ltac keeps_step :=
  first
    [ apply keeps_ret; apply _
    | apply keeps_fail; apply _
    | apply keeps_read_link | apply keeps_read
    | apply keeps_write_link_this | apply keeps_write_this
    | apply keeps_write_link;
        first [apply same_payload_set_prev | apply same_payload_set_next]
    | apply keeps_wread | apply keeps_wwrite
    | apply keeps_get_first | apply keeps_put_first
    | apply keeps_get_count | apply keeps_put_count
    | apply keeps_lock | apply keeps_unlock | apply keeps_printf
    | apply keeps_GetRealTime | apply keeps_int_incr | apply keeps_int_decr
    | match goal with
      | |- keeps _ (match ?x with _ => _ end) => destruct x
      end
    | apply keeps_bind; [apply _ | | intros ?] ].

Lemma keeps_unlink : keeps (others_kept this) (unlink_from_object_list this).
Proof. unfold unlink_from_object_list. repeat keeps_step. Qed.

Lemma keeps_invalidate fuel :
  keeps (others_kept this) (invalidate_weak_refs fuel this).
Proof.
  induction fuel as [|fuel IH]; cbn [invalidate_weak_refs];
    repeat keeps_step. exact IH.
Qed.

Lemma keeps_Object_dtor b fuel :
  keeps (others_kept this) (Object_dtor b fuel this).
Proof.
  unfold Object_dtor. pose proof (keeps_invalidate fuel).
  destruct b; repeat keeps_step; done.
Qed.

Lemma keeps_Object_ctor b i :
  keeps (others_kept this) (Object_ctor b i this).
Proof.
  unfold Object_ctor.
  apply keeps_bind; [apply _ | | intros ?].
  { apply keeps_modify. intros w. by eapply others_kept_insert_this. }
  destruct b; repeat keeps_step.
Qed.

End OthersKept.

(** ** Construction, in full *)

(** What a debug-build construction at a fresh address leaves behind. *)
Lemma Object_ctor_debug_state i this w l :
  registry_ok w l →
  objects w !! this = None →
  object_list_mutex w = false →
  Z.of_nat (length l) < INT_MAX →
  ∃ w',
    Object_ctor true i this w = (Ret tt, w') ∧
    registry_ok w' (this :: l) ∧
    object_list_mutex w' = false ∧
    objects w' !! this =
      Some (set_object_next_ (object_list_first w)
              (set_object_birth_time_ (real_time w) (fresh_object i))) ∧
    weak_refs w' = weak_refs w ∧ log_sink w' = log_sink w ∧
    std_out w' = std_out w.
Proof.
  intros Hok Hfresh Hmutex Hbound.
  destruct (Object_ctor_debug i this w l Hok Hfresh Hmutex Hbound)
    as (w' & o & evs & Hrun & Hok' & Hmutex' & _).
  exists w'. split; [done |]. split; [done |]. split; [done |].
  assert (Hw' : w' = (Object_ctor true i this w).2) by by rewrite Hrun.
  destruct Hok as [Hseg Hcount].
  assert (Hnotin : this ∉ l).
  { intros Hin. destruct (dllseg_in_heap _ _ _ _ _ _ Hseg Hin) as [? ?].
    congruence. }
  clear Hrun Hok' Hmutex'. subst w'.
  destruct w as [mx first cnt time objs wrefs logs out tr]. cbn in *.
  subst mx cnt.
  unfold Object_ctor. run. rewrite lookup_insert_eq. cbn.
  rewrite lookup_insert_eq. cbn. rewrite insert_insert_eq.
  rewrite lookup_insert_eq. cbn. rewrite insert_insert_eq.
  rewrite lookup_insert_eq. cbn. rewrite !insert_insert_eq.
  unfold int_incr.
  destruct l as [|n l'].
  - cbn in Hseg. subst first. cbn. rewrite decide_True by done. cbn.
    by rewrite lookup_insert_eq.
  - pose proof Hseg as (-> & on & Hon & Hprev & _). cbn.
    assert (Hne : this ≠ n) by (intros ->; apply Hnotin; left).
    rewrite lookup_insert_ne by done. rewrite Hon. cbn.
    rewrite decide_True by done. cbn.
    rewrite lookup_insert_ne by done. by rewrite lookup_insert_eq.
Qed.

(** X1. A debug-build construction at a fresh address yields an instance
    born at the current clock value, with no strong references, an empty
    weak chain, no predecessor and the old list head as successor, of the
    type and policy it was constructed with. Every other instance keeps its
    place in the store and all its members but the registry links; weak
    references, log and standard output are not touched. *)
Theorem Object_ctor_fresh_instance (i : ObjectInit) (this : addr)
    (w : World) (l : list addr) :
  registry_ok w l →
  objects w !! this = None →
  object_list_mutex w = false →
  Z.of_nat (length l) < INT_MAX →
  ∃ w' o,
    Object_ctor true i this w = (Ret tt, w') ∧
    objects w' !! this = Some o ∧
    object_birth_time_ o = real_time w ∧
    object_strong_ref_count_ o = 0 ∧
    object_weak_refs_ o = None ∧
    object_prev_ o = None ∧
    object_next_ o = object_list_first w ∧
    type_name o = init_type_name i ∧
    thread_ownership_ o = init_thread_ownership i ∧
    thread_checks_enabled_ o = init_thread_checks_enabled i ∧
    others_kept this w w' ∧
    weak_refs w' = weak_refs w ∧ log_sink w' = log_sink w ∧
    std_out w' = std_out w.
Proof.
  intros Hok Hfresh Hmutex Hbound.
  destruct (Object_ctor_debug_state i this w l Hok Hfresh Hmutex Hbound)
    as (w' & Hrun & _ & _ & Hthis & Hwr & Hlog & Hout).
  eexists w', _. split; [done |]. split; [exact Hthis |].
  repeat (split; [done |]).
  split; [| done].
  pose proof (keeps_Object_ctor this true i w) as Hkept.
  by rewrite Hrun in Hkept.
Qed.

(** ** Destruction, in full *)

(** X2. When the destructor completes, every other instance has kept its
    place in the store and all its members but the registry links, the clock
    and the log are untouched, and the dying instance itself is as it was
    except for its weak chain head: its own [object_prev_] and
    [object_next_] still hold the stale neighbours. Debug and release
    builds. *)
Theorem Object_dtor_leaves_others (BA_DEBUG_BUILD : bool) (fuel : nat)
    (this : addr) (w : World) (o : Object) (ws l1 l2 : list addr) :
  objects w !! this = Some o →
  weak_chain (weak_refs w) (object_weak_refs_ o) ws →
  (length ws < fuel)%nat →
  (BA_DEBUG_BUILD = true →
   registry_ok w (l1 ++ this :: l2) ∧ object_list_mutex w = false) →
  ∃ w',
    Object_dtor BA_DEBUG_BUILD fuel this w = (Ret tt, w') ∧
    others_kept this w w' ∧
    objects w' !! this = Some (set_object_weak_refs_ None o) ∧
    log_sink w' = log_sink w.
Proof.
  intros Ho Hch Hfuel Hreg.
  pose proof (keeps_Object_dtor this BA_DEBUG_BUILD fuel w) as Hkept.
  destruct BA_DEBUG_BUILD.
  - destruct Hreg as [Hok Hmutex]; [done |].
    destruct (Object_dtor_debug fuel this w o ws l1 l2 Hok Hmutex Ho Hch Hfuel)
      as (w' & evs & Hrun & _ & _ & _ & _ & _ & Hthis & _ & Hlog).
    exists w'. rewrite Hrun in Hkept. done.
  - rewrite (Object_dtor_release fuel this w o ws Ho Hch Hfuel) in Hkept |- *.
    eexists. split; [reflexivity |]. split; [done |]. cbn.
    split; [apply lookup_insert_eq | done].
Qed.

(** ** Construction followed by destruction *)

Lemma dllseg_links h h' prev cur l nxt a o o' :
  dllseg h prev cur l nxt → dllseg h' prev cur l nxt →
  a ∈ l → h !! a = Some o → h' !! a = Some o' →
  object_prev_ o = object_prev_ o' ∧ object_next_ o = object_next_ o'.
Proof.
  revert prev cur. induction l as [|b l IH]; intros prev cur H1 H2 Hin Ho Ho';
    [by apply elem_of_nil in Hin |].
  destruct H1 as (-> & o1 & Hb1 & Hp1 & H1).
  destruct H2 as (_ & o2 & Hb2 & Hp2 & H2).
  assert (Hnext : object_next_ o1 = object_next_ o2).
  { destruct l as [|c l']; cbn in H1, H2; [congruence |].
    destruct H1 as [-> _], H2 as [-> _]. done. }
  destruct (decide (a = b)) as [-> | Hne].
  - rewrite Hb1 in Ho. rewrite Hb2 in Ho'.
    injection Ho as <-. injection Ho' as <-. split; congruence.
  - apply elem_of_cons in Hin as [-> | Hin]; [done |].
    rewrite <- Hnext in H2. by eapply (IH (Some b) (object_next_ o1)).
Qed.

Lemma same_payload_links_eq o o' :
  same_payload o o' →
  object_prev_ o = object_prev_ o' → object_next_ o = object_next_ o' →
  o = o'.
Proof.
  destruct o, o'. unfold same_payload, unlinked. cbn.
  intros [= -> -> -> -> -> -> -> ->] -> ->. done.
Qed.

Lemma registry_ok_first w w' l :
  registry_ok w l → registry_ok w' l →
  object_list_first w' = object_list_first w ∧
  object_count w' = object_count w.
Proof.
  intros [H1 Hc1] [H2 Hc2]. split; [| congruence].
  destruct l; cbn in H1, H2; [congruence |].
  destruct H1 as [-> _], H2 as [-> _]. done.
Qed.

(** X3. Constructing an instance at a fresh address and destroying it again
    (debug build) completes and is a round trip on the registry: the live
    list, its head and the live count are what they were, every registered
    instance is exactly as it was, links included, and nothing was printed,
    logged or done to the weak references. *)
Theorem construct_destroy_round_trip (i : ObjectInit) (this : addr)
    (w : World) (l : list addr) (fuel : nat) :
  registry_ok w l →
  objects w !! this = None →
  object_list_mutex w = false →
  Z.of_nat (length l) < INT_MAX →
  (0 < fuel)%nat →
  ∃ w'',
    (Object_ctor true i this;; Object_dtor true fuel this) w = (Ret tt, w'') ∧
    registry_ok w'' l ∧
    object_list_first w'' = object_list_first w ∧
    object_count w'' = object_count w ∧
    (∀ a, a ∈ l → objects w'' !! a = objects w !! a) ∧
    object_list_mutex w'' = false ∧
    weak_refs w'' = weak_refs w ∧ std_out w'' = std_out w ∧
    log_sink w'' = log_sink w.
Proof.
  intros Hok Hfresh Hmutex Hbound Hfuel.
  destruct (Object_ctor_debug_state i this w l Hok Hfresh Hmutex Hbound)
    as (w' & Hrun & Hok' & Hmutex' & Hthis & Hwr & Hlog & Hout).
  destruct (Object_dtor_debug fuel this w' _ [] [] l
              Hok' Hmutex' Hthis eq_refl Hfuel)
    as (w'' & evs & Hrun' & Hok'' & Hmutex'' & _ & _ & Hwr' & _ & Hout'
        & Hlog').
  cbn in Hok'', Hwr', Hout'. rewrite app_nil_r in Hout'.
  exists w''. split.
  { unfold mbind, M_bind, bind. by rewrite Hrun. }
  split; [done |].
  destruct (registry_ok_first w w'' l Hok Hok'') as [Hfirst Hcount].
  split; [done |]. split; [done |].
  split; [| by rewrite Hwr', Hout', Hlog'].
  intros a Ha.
  assert (Hne : a ≠ this).
  { intros ->. destruct Hok as [Hseg _].
    destruct (dllseg_in_heap _ _ _ _ _ _ Hseg Ha) as [? ?]. congruence. }
  pose proof (keeps_Object_ctor this true i w) as [Hk1 _].
  pose proof (keeps_Object_dtor this true fuel w') as [Hk2 _].
  rewrite Hrun in Hk1. rewrite Hrun' in Hk2. cbn in Hk1, Hk2.
  specialize (Hk1 a Hne). specialize (Hk2 a Hne).
  destruct Hok as [Hseg _], Hok'' as [Hseg'' _].
  rewrite Hfirst in Hseg''.
  destruct (dllseg_in_heap _ _ _ _ _ _ Hseg Ha) as [o1 E1].
  rewrite E1 in Hk1 |- *.
  inversion Hk1 as [? o2 Hs12 E E2 |]; subst.
  rewrite <- E2 in Hk2. inversion Hk2 as [? o3 Hs23 E E3 |]; subst.
  f_equal. symmetry.
  assert (Hs13 : same_payload o1 o3) by by etrans.
  destruct (dllseg_links (objects w) (objects w'') None _ l None a o1 o3
              Hseg Hseg'' Ha E1 (eq_sym E3)) as [Hp Hn].
  by apply same_payload_links_eq.
Qed.

(** ** The census after a construction or a destruction *)

Lemma same_payload_type_name o o' :
  same_payload o o' → type_name o = type_name o'.
Proof. intros H. by apply (f_equal type_name) in H. Qed.

Lemma same_payload_weak_refs o o' :
  same_payload o o' → object_weak_refs_ o = object_weak_refs_ o'.
Proof. intros H. by apply (f_equal object_weak_refs_) in H. Qed.

Lemma type_names_kept this w w' l :
  others_kept this w w' → this ∉ l →
  type_names (objects w') l = type_names (objects w) l.
Proof.
  intros [Hkept _] Hnotin. unfold type_names. apply list_fmap_ext.
  intros k a Ha. apply list_elem_of_lookup_2 in Ha.
  assert (Hne : a ≠ this) by (by intros ->).
  destruct (Hkept a Hne) as [o o' Hs |]; [| done].
  cbn. symmetry. by apply same_payload_type_name.
Qed.

(** The world [LsObjects] leaves behind, in full. *)
Lemma LsObjects_debug_world fuel w l :
  registry_ok w l →
  object_list_mutex w = false →
  (length l < fuel)%nat →
  Z.of_nat (length l) ≤ INT_MAX →
  ∃ evs,
    LsObjects true fuel w =
      (Ret tt,
       with_log_sink
         (log_sink w ++
          [(kInfo, census_report (object_count w) (real_time w)
                     (census_groups (type_names (objects w) l)))])
         (with_trace (trace w ++ evs) w)).
Proof.
  intros [Hseg Hcount] Hmutex Hfuel Hmax.
  destruct w as [mx first cnt time objs wrefs logs out tr]. cbn in *. subst mx.
  unfold LsObjects. run.
  match goal with
  | |- context [tally_loop fuel first 0 ∅ ?W] =>
    destruct (tally_loop_run l fuel W None first 0 ∅)
      as (evs & Hrun & Hheld); [done | done | done | done | lia | done |]
  end.
  rewrite Hrun. cbn. rewrite decide_True by lia. cbn.
  rewrite <- !app_assoc. cbn. by eexists.
Qed.

(** X4. Destroying a registered instance and then taking the census (debug
    build) logs the census of the instances that remain: the count is one
    less, and the groups are those of the type names of the other
    instances, as they were before the destruction. *)
Theorem census_after_destruction (fuel fuel' : nat) (this : addr)
    (w : World) (o : Object) (ws l1 l2 : list addr) :
  registry_ok w (l1 ++ this :: l2) →
  object_list_mutex w = false →
  objects w !! this = Some o →
  weak_chain (weak_refs w) (object_weak_refs_ o) ws →
  (length ws < fuel)%nat →
  (length (l1 ++ l2) < fuel')%nat →
  object_count w ≤ INT_MAX →
  ∃ w'',
    (Object_dtor true fuel this;; LsObjects true fuel') w = (Ret tt, w'') ∧
    log_sink w'' =
      log_sink w ++
      [(kInfo, census_report (object_count w - 1) (real_time w)
                 (census_groups (type_names (objects w) (l1 ++ l2))))].
Proof.
  intros Hok Hmutex Ho Hch Hfuel Hfuel' Hmax.
  destruct (registry_ok_at w _ _ this Hok) as (_ & Hn1 & Hn2 & _).
  destruct (Object_dtor_debug fuel this w o ws l1 l2 Hok Hmutex Ho Hch Hfuel)
    as (w' & evs & Hrun & Hok' & Hmutex' & _ & _ & _ & _ & _ & Hlog).
  pose proof (keeps_Object_dtor this true fuel w) as Hkept.
  rewrite Hrun in Hkept. cbn in Hkept.
  destruct Hok as [_ Hc]. pose proof Hok' as [_ Hc'].
  rewrite length_app in Hc. cbn [length] in Hc. rewrite length_app in Hc'.
  destruct (LsObjects_debug_world fuel' w' (l1 ++ l2) Hok' Hmutex' Hfuel')
    as (evs' & Hrun'); [rewrite length_app; lia |].
  rewrite (type_names_kept this w w' (l1 ++ l2) Hkept) in Hrun'
    by (intros [?|?]%elem_of_app; done).
  destruct Hkept as [_ Hclock]. rewrite Hclock, Hlog in Hrun'.
  replace (object_count w') with (object_count w - 1) in Hrun' by lia.
  eexists. split.
  { unfold mbind, M_bind, bind. rewrite Hrun. exact Hrun'. }
  done.
Qed.

(** X5. Constructing an instance at a fresh address and then taking the
    census (debug build) logs a count that is one more and the groups of the
    new instance's type name together with the type names of the instances
    that were live before. *)
Theorem census_after_construction (fuel : nat) (i : ObjectInit)
    (this : addr) (w : World) (l : list addr) :
  registry_ok w l →
  objects w !! this = None →
  object_list_mutex w = false →
  Z.of_nat (length l) < INT_MAX →
  (S (length l) < fuel)%nat →
  ∃ w'',
    (Object_ctor true i this;; LsObjects true fuel) w = (Ret tt, w'') ∧
    log_sink w'' =
      log_sink w ++
      [(kInfo, census_report (object_count w + 1) (real_time w)
                 (census_groups
                    (init_type_name i :: type_names (objects w) l)))].
Proof.
  intros Hok Hfresh Hmutex Hbound Hfuel.
  destruct (Object_ctor_debug_state i this w l Hok Hfresh Hmutex Hbound)
    as (w' & Hrun & Hok' & Hmutex' & Hthis & _ & Hlog & _).
  pose proof (keeps_Object_ctor this true i w) as Hkept.
  rewrite Hrun in Hkept. cbn in Hkept.
  assert (Hnotin : this ∉ l).
  { intros Hin. destruct Hok as [Hseg _].
    destruct (dllseg_in_heap _ _ _ _ _ _ Hseg Hin) as [? ?]. congruence. }
  destruct Hok as [_ Hc]. pose proof Hok' as [_ Hc']. cbn [length] in Hc'.
  destruct (LsObjects_debug_world fuel w' (this :: l) Hok' Hmutex' Hfuel)
    as (evs' & Hrun'); [cbn [length]; lia |].
  assert (Hnames : type_names (objects w') (this :: l)
                   = init_type_name i :: type_names (objects w) l).
  { unfold type_names at 1. rewrite fmap_cons. rewrite Hthis. cbn.
    f_equal. by apply (type_names_kept this). }
  rewrite Hnames in Hrun'. destruct Hkept as [_ Hclock].
  rewrite Hclock, Hlog in Hrun'.
  replace (object_count w') with (object_count w + 1) in Hrun' by lia.
  eexists. split.
  { unfold mbind, M_bind, bind. rewrite Hrun. exact Hrun'. }
  done.
Qed.

(** ** What the census does and does not do *)

(** X6. [LsObjects] only logs. In a release build it appends the notice
    that it only functions in debug builds, takes no lock and reads no
    registry state. In a debug build, on a well-formed registry, it appends
    one info line. Either way the instances, the live list, the live count,
    the weak references and the standard output are left exactly as they
    were, and the registry lock is free again. *)
Theorem LsObjects_only_logs (BA_DEBUG_BUILD : bool) (fuel : nat) (w : World)
    (l : list addr) :
  (BA_DEBUG_BUILD = true →
   registry_ok w l ∧ object_list_mutex w = false ∧
   (length l < fuel)%nat ∧ Z.of_nat (length l) ≤ INT_MAX) →
  ∃ line evs,
    LsObjects BA_DEBUG_BUILD fuel w =
      (Ret tt,
       with_log_sink (log_sink w ++ [(kInfo, line)])
         (with_trace (trace w ++ evs) w)) ∧
    (BA_DEBUG_BUILD = false →
     line = "LsObjects() only functions in debug builds." ∧ evs = []).
Proof.
  intros Hpre. destruct BA_DEBUG_BUILD.
  - destruct Hpre as (Hok & Hmutex & Hfuel & Hmax); [done |].
    destruct (LsObjects_debug_world fuel w l Hok Hmutex Hfuel Hmax)
      as (evs & Hrun).
    eexists _, evs. split; [exact Hrun | done].
  - eexists _, []. split; [| done].
    unfold LsObjects. run. rewrite app_nil_r. by destruct w.
Qed.

(** X7. On an empty registry the debug-build census logs the header alone:
    a count of 0, the time, and no group line. *)
Theorem LsObjects_empty_registry (fuel : nat) (w : World) :
  registry_ok w [] →
  object_list_mutex w = false →
  (0 < fuel)%nat →
  ∃ evs,
    LsObjects true fuel w =
      (Ret tt,
       with_log_sink
         (log_sink w ++
          [(kInfo, "0 Objects at time " +:+ to_string (real_time w) +:+ ";")])
         (with_trace (trace w ++ evs) w)).
Proof.
  intros Hok Hmutex Hfuel.
  destruct (LsObjects_debug_world fuel w [] Hok Hmutex Hfuel) as (evs & Hrun);
    [done |].
  exists evs. rewrite Hrun. destruct Hok as [_ ->]. reflexivity.
Qed.

(** X8. When the live count disagrees with the number of instances in the
    (well-formed) live list, the debug-build census fails its assertion
    and logs nothing. *)
Theorem LsObjects_count_mismatch (fuel : nat) (w : World) (l : list addr) :
  dllseg (objects w) None (object_list_first w) l None →
  object_count w ≠ Z.of_nat (length l) →
  object_list_mutex w = false →
  (length l < fuel)%nat →
  Z.of_nat (length l) ≤ INT_MAX →
  ∃ w', LsObjects true fuel w = (Abort AssertFailed, w') ∧
        log_sink w' = log_sink w ∧ std_out w' = std_out w.
Proof.
  intros Hseg Hcount Hmutex Hfuel Hmax.
  destruct w as [mx first cnt time objs wrefs logs out tr]. cbn in *. subst mx.
  unfold LsObjects. run.
  match goal with
  | |- context [tally_loop fuel first 0 ∅ ?W] =>
    destruct (tally_loop_run l fuel W None first 0 ∅)
      as (evs & Hrun & Hheld); [done | done | done | done | lia | done |]
  end.
  rewrite Hrun. cbn. rewrite decide_False by lia. cbn. by eexists.
Qed.

(** ** Sequences of constructions and destructions *)

Lemma others_kept_fresh this w w' a :
  others_kept this w w' → a ≠ this →
  objects w !! a = None → objects w' !! a = None.
Proof.
  intros [Hkept _] Hne Ha. specialize (Hkept a Hne). rewrite Ha in Hkept.
  by inversion Hkept.
Qed.

(** X9. Constructing instances one after the other at distinct fresh
    addresses (debug build) completes and registers them all: the live list
    is the constructed addresses, newest first, in front of the instances
    that were live before, the live count has grown by their number, and the
    type names along the list are the constructed types, newest first,
    followed by the old ones. *)
Theorem construct_all_registers (insts : list (ObjectInit * addr))
    (w : World) (l : list addr) :
  registry_ok w l →
  object_list_mutex w = false →
  NoDup insts.*2 →
  (∀ p, p ∈ insts.*2 → objects w !! p = None) →
  Z.of_nat (length l + length insts) ≤ INT_MAX →
  ∃ w',
    construct_all insts w = (Ret tt, w') ∧
    registry_ok w' (reverse insts.*2 ++ l) ∧
    object_count w' = object_count w + Z.of_nat (length insts) ∧
    object_list_mutex w' = false ∧
    type_names (objects w') (reverse insts.*2 ++ l)
      = reverse (init_type_name <$> insts.*1) ++ type_names (objects w) l.
Proof.
  revert w l. induction insts as [|[i p] insts IH];
    intros w l Hok Hmutex Hnd Hfresh Hmax.
  - exists w. split; [done |]. split; [done |]. split; [cbn; lia | done].
  - cbn [fmap list_fmap snd fst] in *. apply NoDup_cons in Hnd as [Hp Hnd].
    cbn [length] in Hmax.
    destruct (Object_ctor_debug_state i p w l Hok) as
      (w1 & Hrun & Hok1 & Hmutex1 & Hthis & _);
      [apply Hfresh; left | done | lia |].
    pose proof (keeps_Object_ctor p true i w) as Hkept.
    rewrite Hrun in Hkept. cbn in Hkept.
    assert (Hnotin : p ∉ l).
    { intros Hin. destruct Hok as [Hseg _].
      destruct (dllseg_in_heap _ _ _ _ _ _ Hseg Hin) as [? Hsome].
      rewrite Hfresh in Hsome; [done | left]. }
    destruct (IH w1 (p :: l) Hok1 Hmutex1 Hnd) as
      (w' & Hrun' & Hok' & Hcount' & Hmutex' & Hnames').
    { intros q Hq. apply (others_kept_fresh p w w1); [done | |].
      - intros ->. done.
      - apply Hfresh. by right. }
    { cbn [length]. lia. }
    exists w'. rewrite !reverse_cons, <- !app_assoc. cbn [app].
    split. { cbn [construct_all]. unfold mbind, M_bind, bind. by rewrite Hrun. }
    split; [done |].
    destruct Hok as [_ Hc], Hok1 as [_ Hc1]. cbn [length] in Hc1 |- *.
    split; [lia |]. split; [done |].
    rewrite Hnames'. f_equal. unfold type_names at 1. rewrite fmap_cons.
    rewrite Hthis. cbn. f_equal. by apply (type_names_kept p).
Qed.

(** X10. Destroying every registered instance, in any order (debug build),
    completes and empties the registry: the live list is empty and the live
    count is 0. Stated for instances that have no weak references. *)
Theorem destroy_all_empties (fuel : nat) (ps : list addr) (w : World)
    (l : list addr) :
  registry_ok w l →
  object_list_mutex w = false →
  ps ≡ₚ l →
  (0 < fuel)%nat →
  (∀ a o, a ∈ l → objects w !! a = Some o → object_weak_refs_ o = None) →
  ∃ w',
    destroy_all fuel ps w = (Ret tt, w') ∧
    registry_ok w' [] ∧
    object_list_first w' = None ∧ object_count w' = 0 ∧
    object_list_mutex w' = false.
Proof.
  revert w l. induction ps as [|p ps IH]; intros w l Hok Hmutex Hperm Hfuel Hweak.
  - apply Permutation_nil in Hperm. subst l. exists w.
    destruct Hok as [Hseg Hc]. cbn in Hseg, Hc. done.
  - assert (Hin : p ∈ l) by (rewrite <- Hperm; left).
    apply list_elem_of_split in Hin as (l1 & l2 & ->).
    destruct (registry_ok_at w _ _ p Hok) as (o & Hn1 & Hn2 & _ & Ho & _).
    assert (Hnone : object_weak_refs_ o = None).
    { apply (Hweak p o); [| done]. apply elem_of_app. right. left. }
    destruct (Object_dtor_debug fuel p w o [] l1 l2 Hok Hmutex Ho) as
      (w1 & evs & Hrun & Hok1 & Hmutex1 & _); [by rewrite Hnone | done |].
    pose proof (keeps_Object_dtor p true fuel w) as [Hkept _].
    rewrite Hrun in Hkept. cbn in Hkept.
    destruct (IH w1 (l1 ++ l2) Hok1 Hmutex1) as (w' & Hrun' & Hrest);
      [by apply Permutation_cons_app_inv in Hperm | done | |].
    { intros a o1 Ha Ho1.
      assert (Hne : a ≠ p) by (intros ->; apply elem_of_app in Ha as [?|?]; done).
      specialize (Hkept a Hne). rewrite Ho1 in Hkept.
      inversion Hkept as [o0 ? Hsame E0 E1 |]; subst.
      rewrite <- (same_payload_weak_refs o0 o1 Hsame).
      apply (Hweak a o0); [| done].
      apply elem_of_app in Ha as [?|?]; apply elem_of_app; [by left |].
      right. by right. }
    exists w'. split; [| done].
    cbn [destroy_all]. unfold mbind, M_bind, bind. by rewrite Hrun.
Qed.

(** ** What the affinity functions do and do not do *)

Lemma traced_read {A} p (field : Object → A) : keeps only_traced (read p field).
Proof. intros w. unfold read. case_match; reflexivity. Qed.

Lemma traced_emit e : keeps only_traced (emit e).
Proof. intros w. by exists [e]. Qed.

Ltac traced_step :=
  first
    [ apply keeps_ret; apply _
    | apply keeps_fail; apply _
    | apply traced_read | apply traced_emit
    | match goal with
      | |- keeps _ (match ?x with _ => _ end) => destruct x
      end
    | apply keeps_bind; [apply _ | | intros ?] ].

Lemma traced_InThread th t : keeps only_traced (InThread th t).
Proof. unfold InThread. repeat traced_step. Qed.

Lemma traced_CurrentThreadName th : keeps only_traced (CurrentThreadName th).
Proof. unfold CurrentThreadName. repeat traced_step. Qed.

Lemma traced_GetThreadOwnership b this :
  keeps only_traced (GetThreadOwnership b this).
Proof. unfold GetThreadOwnership. repeat traced_step. Qed.

Lemma traced_expect_thread P th this t name :
  keeps only_traced (expect_thread P th this t name).
Proof.
  unfold expect_thread, DO_FAIL, GetObjectDescription, GetObjectTypeName, throw.
  apply keeps_bind; [apply _ | apply traced_InThread | intros b].
  destruct (negb b); [| apply keeps_ret; apply _].
  apply keeps_bind; [apply _ | | intros d].
  { repeat traced_step. }
  apply keeps_bind; [apply _ | apply traced_CurrentThreadName | intros n].
  apply keeps_fail; apply _.
Qed.

(** X11. The affinity check is read-only: whether it returns or throws,
    whatever the instance, the thread and the flags are, and even when
    [this] is dangling, the world after it differs from the world before it
    in the ghost trace alone. In particular a check never binds the owner
    role, never changes a strong count and never logs or prints. *)
Theorem ObjectThreadCheck_read_only (PtrToString : addr → string)
    (th : Thread) (this : addr) (w : World) :
  ∃ evs,
    (ObjectThreadCheck PtrToString th this w).2
      = with_trace (trace w ++ evs) w.
Proof.
  assert (Hkeeps : keeps only_traced (ObjectThreadCheck PtrToString th this)).
  { unfold ObjectThreadCheck, GetDefaultOwnerThread, throw.
    apply keeps_bind; [apply _ | apply traced_read | intros enabled].
    destruct (negb enabled); [apply keeps_ret; apply _ |].
    apply keeps_bind; [apply _ | apply traced_GetThreadOwnership | intros own].
    apply keeps_bind; [apply _ | | intros t].
    { case_decide; repeat traced_step. }
    destruct t; first [apply traced_expect_thread | apply keeps_fail; apply _]. }
  exact (Hkeeps w).
Qed.

(** X12. Acquiring a strong reference to an instance under the
    class-default policy never binds anything and never consults the thread
    oracle: it returns from every thread, also from one that has no role,
    and leaves the world as it was but for the one ownership query in the
    ghost trace. *)
Theorem ObjectUpdateForAcquire_class_default (th : Thread) (this : addr)
    (w : World) (o : Object) :
  objects w !! this = Some o →
  thread_ownership_ o = kClassDefault →
  ObjectUpdateForAcquire th this w
    = (Ret tt, with_trace (trace w ++ [EvGetThreadOwnership]) w).
Proof.
  intros Ho Hmode.
  unfold ObjectUpdateForAcquire, GetThreadOwnership, emit, read.
  unfold_monad. cbn. rewrite Ho. cbn. rewrite Hmode.
  by rewrite decide_False.
Qed.

(** X13. Acquisition followed by checks. Once the first strong reference to
    an unbound next-referencing instance with checks enabled has been
    acquired by a thread whose current role is [r], the affinity check
    passes from the acquiring thread and from every thread that is the
    thread of role [r], and throws, naming [r] as the expected role, from
    every thread that is not. *)
Theorem acquire_then_check (PtrToString : addr → string) (th : Thread)
    (this : addr) (w : World) (o : Object) (r : ThreadTag) :
  objects w !! this = Some o →
  thread_ownership_ o = kNextReferencing →
  owner_thread_ o = kInvalid →
  thread_checks_enabled_ o = true →
  (GetCurrentThreadTag th w).1 = Ret r →
  ∃ w',
    ObjectUpdateForAcquire th this w = (Ret tt, w') ∧
    (ObjectThreadCheck PtrToString th this w').1 = Ret tt ∧
    (∀ th2, in_thread th2 r = true →
            (ObjectThreadCheck PtrToString th2 this w').1 = Ret tt) ∧
    (∀ th2, in_thread th2 r = false →
            (ObjectThreadCheck PtrToString th2 this w').1
              = Abort (Thrown (check_failure PtrToString th2 this
                                 (set_owner_thread_ r o)))).
Proof.
  intros Ho Hmode Hown Hen Hr.
  destruct (ObjectUpdateForAcquire_unbound th this w o r Ho Hmode Hown Hr)
    as (w' & Hrun & Hobjs & _).
  pose proof (GetCurrentThreadTag_ret th w r Hr) as Hin.
  assert (Hvalid : r ≠ kInvalid) by (intros ->; done).
  set (o' := set_owner_thread_ r o).
  assert (Ho' : objects w' !! this = Some o').
  { rewrite Hobjs. apply lookup_insert_eq. }
  assert (Hreq : required_role o' = r).
  { unfold required_role, o'. cbn. by rewrite Hmode. }
  assert (Hcheck : ∀ th2,
    (ObjectThreadCheck PtrToString th2 this w').1 =
      if in_thread th2 r then Ret tt
      else Abort (Thrown (check_failure PtrToString th2 this o'))).
  { intros th2.
    rewrite (ObjectThreadCheck_enabled PtrToString th2 this o' w' Ho' Hen).
    rewrite Hreq, decide_False by done.
    rewrite (expect_thread_run PtrToString th2 this o' r
               (with_trace (trace w' ++ resolve_events o') w') Ho').
    unfold check_failure. rewrite Hreq. by destruct (in_thread th2 r). }
  exists w'. split; [done |]. split; [by rewrite Hcheck, Hin |].
  split; intros th2 H2; by rewrite Hcheck, H2.
Qed.

(** X14. The thread oracle asks its predicates in the order main, logic,
    audio, network-write, assets, background-dynamics, answers the first
    role the thread matches and asks nothing after it; a thread that matches
    several predicates gets the earliest of them. Only when all six have
    been asked in vain does it read the thread's name and throw. *)
Theorem GetCurrentThreadTag_priority (th : Thread) (w : World) :
  GetCurrentThreadTag th w =
    match first_role th with
    | Some r => (Ret r, with_trace (trace w ++ asked_until r) w)
    | None =>
      (Abort (Thrown (unrecognized_thread th)),
       with_trace (trace w ++ (EvInThread <$> known_roles) ++ [EvThreadName])
         w)
    end.
Proof.
  unfold GetCurrentThreadTag, first_role, asked_until. run.
  destruct w as [mx first cnt time objs wrefs logs out tr]. cbn.
  destruct (InMainThread th); cbn;
    [by repeat (case_decide; try done) |].
  destruct (InLogicThread th); cbn; rewrite <- ?app_assoc;
    [by repeat (case_decide; try done) |].
  destruct (InAudioThread th); cbn; rewrite <- ?app_assoc;
    [by repeat (case_decide; try done) |].
  destruct (InNetworkWriteThread th); cbn; rewrite <- ?app_assoc;
    [by repeat (case_decide; try done) |].
  destruct (InAssetsThread th); cbn; rewrite <- ?app_assoc;
    [by repeat (case_decide; try done) |].
  destruct (InBGDynamicsThread th); cbn; rewrite <- ?app_assoc;
    [by repeat (case_decide; try done) |].
  done.
Qed.

(** ** [MeshData] construction, access and destruction *)

(** X15. For a [MeshData], with assertions compiled in, [renderer_data()]
    fails its assertion exactly when the destructor would log nothing, and
    returns the renderer data exactly when the destructor would log the
    error; neither changes anything else. A freshly constructed [MeshData]
    is in the first state, and keeps the type and draw type it was given. *)
Theorem MeshData_access_and_destruction (m : MeshData) (w : World) :
  ((renderer_data true m w = (Abort AssertFailed, w)
    ∧ MeshData_dtor m w = (Ret tt, w)
    ∧ renderer_data_ m = None)
   ∨ (∃ p, renderer_data true m w = (Ret (Some p), w)
           ∧ MeshData_dtor m w
             = (Ret tt,
                with_log_sink (log_sink w ++ [(kError, mesh_data_error)]) w)
           ∧ renderer_data_ m = Some p))
  ∧ renderer_data false m w = (Ret (renderer_data_ m), w)
  ∧ ∀ type draw_type,
      renderer_data_ (MeshData_ctor type draw_type) = None ∧
      type_ (MeshData_ctor type draw_type) = type ∧
      draw_type_ (MeshData_ctor type draw_type) = draw_type.
Proof.
  split; [| split; [done | done]].
  unfold renderer_data, MeshData_dtor. destruct (renderer_data_ m) as [p|].
  - right. exists p. done.
  - left. done.
Qed.

(** ** The census and the order of construction *)

Lemma occurrences_Permutation x names names' :
  names ≡ₚ names' → occurrences x names = occurrences x names'.
Proof. intros H. unfold occurrences. by rewrite H. Qed.

Lemma census_groups_Permutation names names' :
  names ≡ₚ names' → census_groups names = census_groups names'.
Proof.
  intros H. unfold census_groups. f_equal. f_equal. apply map_eq. intros x.
  by rewrite !tally_lookup, (occurrences_Permutation x names names' H).
Qed.

(** X16. The census does not depend on the order of the live list: two
    registries (debug build) that hold the same number of instances of each
    type, read at the same time, log the same report, however their
    instances are ordered and wherever they are stored. *)
Theorem LsObjects_order_independent (fuel fuel' : nat) (w w' : World)
    (l l' : list addr) :
  registry_ok w l → registry_ok w' l' →
  object_list_mutex w = false → object_list_mutex w' = false →
  (length l < fuel)%nat → (length l' < fuel')%nat →
  Z.of_nat (length l) ≤ INT_MAX →
  type_names (objects w) l ≡ₚ type_names (objects w') l' →
  real_time w = real_time w' →
  ∃ line,
    log_sink (LsObjects true fuel w).2 = log_sink w ++ [(kInfo, line)] ∧
    log_sink (LsObjects true fuel' w').2 = log_sink w' ++ [(kInfo, line)].
Proof.
  intros Hok Hok' Hmutex Hmutex' Hfuel Hfuel' Hmax Hperm Htime.
  assert (Hlen : length l = length l').
  { apply Permutation_length in Hperm. unfold type_names in Hperm.
    by rewrite !length_fmap in Hperm. }
  destruct (LsObjects_debug_world fuel w l Hok Hmutex Hfuel Hmax)
    as (evs & Hrun).
  destruct (LsObjects_debug_world fuel' w' l' Hok' Hmutex' Hfuel')
    as (evs' & Hrun'); [lia |].
  eexists. rewrite Hrun, Hrun'. cbn. split; [reflexivity |].
  destruct Hok as [_ Hc], Hok' as [_ Hc'].
  rewrite Hc, Hc', Hlen, Htime.
  by rewrite (census_groups_Permutation _ _ Hperm).
Qed.

(** ** The further properties at concrete inputs *)

(** An eighth instance, of type D, is constructed in [abc_world]. *)
Lemma Object_ctor_fresh_instance_witness :
  ∃ w' o,
    Object_ctor true (init_of "D") 8 abc_world = (Ret tt, w') ∧
    objects w' !! 8%N = Some o ∧
    object_next_ o = Some 7%N ∧ type_name o = "D" ∧
    object_strong_ref_count_ o = 0.
Proof.
  destruct (Object_ctor_fresh_instance (init_of "D") 8%N abc_world
              [7; 6; 5; 4; 3; 2; 1]%N abc_world_registry_ok)
    as (w' & o & Hrun & Ho & _ & Hstrong & _ & _ & Hnext & Hname & _).
  - vm_compute. reflexivity.
  - reflexivity.
  - vm_compute. reflexivity.
  - exists w', o. split; [exact Hrun |]. split; [exact Ho |].
    split; [exact Hnext |]. split; [exact Hname | exact Hstrong].
Defined.

(** The instance of [weak_world] is destroyed: it keeps its members but
    the weak chain head. *)
Lemma Object_dtor_leaves_others_witness :
  ∃ w',
    Object_dtor true 3 1 weak_world = (Ret tt, w') ∧
    objects w' !! 1%N = Some (set_object_weak_refs_ None weak_object).
Proof.
  destruct (Object_dtor_leaves_others true 3 1%N weak_world weak_object
              [10%N; 11%N] [] []) as (w' & Hrun & _ & Hthis & _).
  - reflexivity.
  - solve_chain.
  - cbn. lia.
  - intros _. split; [| reflexivity].
    by apply (single_world_registry_ok weak_object).
  - exists w'. split; [exact Hrun | exact Hthis].
Defined.

(** Constructing and destroying an eighth instance gives [abc_world]'s
    registry back. *)
Lemma construct_destroy_round_trip_witness :
  ∃ w'',
    (Object_ctor true (init_of "D") 8;; Object_dtor true 1 8) abc_world
      = (Ret tt, w'') ∧
    registry_ok w'' [7; 6; 5; 4; 3; 2; 1]%N ∧
    object_count w'' = 7 ∧
    objects w'' !! 7%N = objects abc_world !! 7%N.
Proof.
  destruct (construct_destroy_round_trip (init_of "D") 8%N abc_world
              [7; 6; 5; 4; 3; 2; 1]%N 1%nat abc_world_registry_ok)
    as (w'' & Hrun & Hok & _ & Hcount & Hsame & _).
  - vm_compute. reflexivity.
  - reflexivity.
  - vm_compute. reflexivity.
  - lia.
  - exists w''. split; [exact Hrun |]. split; [exact Hok |].
    split; [exact Hcount |]. apply Hsame. left.
Defined.

(** Without the instance at address 4, [abc_world] has two instances of
    type A. *)
Lemma census_after_destruction_witness :
  ∃ w'',
    (Object_dtor true 1 4;; LsObjects true 7) abc_world = (Ret tt, w'') ∧
    log_sink w'' =
      [(kInfo, "6 Objects at time 1000;"
               +:+ newline +:+ "   3: C"
               +:+ newline +:+ "   2: A"
               +:+ newline +:+ "   1: B")].
Proof.
  destruct (census_after_destruction 1 7 4%N abc_world
              (default (fresh_object (init_of "A")) (objects abc_world !! 4%N))
              [] [7; 6; 5]%N [3; 2; 1]%N abc_world_registry_ok)
    as (w'' & Hrun & Hlog).
  - reflexivity.
  - vm_compute. reflexivity.
  - reflexivity.
  - cbn. lia.
  - cbn. lia.
  - vm_compute. discriminate.
  - exists w''. split; [exact Hrun |]. rewrite Hlog. vm_compute. reflexivity.
Defined.

(** With one more instance of type B, [abc_world] has two of them. *)
Lemma census_after_construction_witness :
  ∃ w'',
    (Object_ctor true (init_of "B") 8;; LsObjects true 9) abc_world
      = (Ret tt, w'') ∧
    log_sink w'' =
      [(kInfo, "8 Objects at time 1000;"
               +:+ newline +:+ "   3: C"
               +:+ newline +:+ "   3: A"
               +:+ newline +:+ "   2: B")].
Proof.
  destruct (census_after_construction 9 (init_of "B") 8%N abc_world
              [7; 6; 5; 4; 3; 2; 1]%N abc_world_registry_ok)
    as (w'' & Hrun & Hlog).
  - vm_compute. reflexivity.
  - reflexivity.
  - vm_compute. reflexivity.
  - cbn. lia.
  - exists w''. split; [exact Hrun |]. rewrite Hlog. vm_compute. reflexivity.
Defined.

(** The debug-build census of [abc_world] changes the log and the trace
    only. *)
Lemma LsObjects_only_logs_witness :
  ∃ line evs,
    LsObjects true 8 abc_world =
      (Ret tt,
       with_log_sink (log_sink abc_world ++ [(kInfo, line)])
         (with_trace (trace abc_world ++ evs) abc_world)) ∧
    (true = false →
     line = "LsObjects() only functions in debug builds." ∧ evs = []).
Proof.
  apply (LsObjects_only_logs true 8 abc_world [7; 6; 5; 4; 3; 2; 1]%N).
  intros _. split; [exact abc_world_registry_ok |].
  split; [reflexivity |]. split; [cbn; lia | vm_compute; discriminate].
Defined.

(** The census of the empty world. *)
Lemma LsObjects_empty_registry_witness :
  ∃ evs,
    LsObjects true 1 empty_world =
      (Ret tt,
       with_log_sink [(kInfo, "0 Objects at time 1000;")]
         (with_trace evs empty_world)).
Proof.
  destruct (LsObjects_empty_registry 1 empty_world) as (evs & Hrun).
  - split; reflexivity.
  - reflexivity.
  - lia.
  - exists evs. exact Hrun.
Defined.

(** The census of a world whose count says 5 while 7 instances are
    listed. *)
Lemma LsObjects_count_mismatch_witness :
  ∃ w', LsObjects true 8 miscounted_world = (Abort AssertFailed, w') ∧
        log_sink w' = log_sink miscounted_world ∧
        std_out w' = std_out miscounted_world.
Proof.
  apply (LsObjects_count_mismatch 8 miscounted_world [7; 6; 5; 4; 3; 2; 1]%N).
  - solve_dllseg.
  - vm_compute. discriminate.
  - reflexivity.
  - cbn. lia.
  - vm_compute. discriminate.
Defined.

(** Three instances are constructed in the empty world. *)
Lemma construct_all_registers_witness :
  ∃ w',
    construct_all three_insts empty_world = (Ret tt, w') ∧
    registry_ok w' [9; 5; 3]%N ∧
    object_count w' = 3 ∧
    type_names (objects w') [9; 5; 3]%N = ["Sound"; "Node"; "Sound"].
Proof.
  destruct (construct_all_registers three_insts empty_world [])
    as (w' & Hrun & Hok & Hcount & _ & Hnames).
  - split; reflexivity.
  - reflexivity.
  - apply (bool_decide_unpack _). vm_compute. exact I.
  - intros p Hp. reflexivity.
  - vm_compute. discriminate.
  - exists w'. split; [exact Hrun |]. split; [exact Hok |].
    split; [exact Hcount | exact Hnames].
Defined.

(** The seven instances of [abc_world] are destroyed in some order. *)
Lemma destroy_all_empties_witness :
  ∃ w',
    destroy_all 1 [4; 1; 7; 2; 6; 3; 5]%N abc_world = (Ret tt, w') ∧
    object_list_first w' = None ∧ object_count w' = 0.
Proof.
  destruct (destroy_all_empties 1 [4; 1; 7; 2; 6; 3; 5]%N abc_world
              [7; 6; 5; 4; 3; 2; 1]%N abc_world_registry_ok)
    as (w' & Hrun & _ & Hfirst & Hcount & _).
  - reflexivity.
  - apply (bool_decide_unpack _). vm_compute. exact I.
  - lia.
  - intros a o Ha.
    repeat (apply elem_of_cons in Ha as [-> | Ha];
            [vm_compute; intros [= <-]; reflexivity |]).
    apply elem_of_nil in Ha. destruct Ha.
  - exists w'. split; [exact Hrun |]. split; [exact Hfirst | exact Hcount].
Defined.

(** A thread without a role acquires a class-default instance. *)
Lemma ObjectUpdateForAcquire_class_default_witness :
  ObjectUpdateForAcquire stray_thread 1 (single_world logic_object)
    = (Ret tt, with_trace [EvGetThreadOwnership] (single_world logic_object)).
Proof.
  apply (ObjectUpdateForAcquire_class_default stray_thread 1%N
           (single_world logic_object) logic_object); reflexivity.
Defined.

(** The audio thread acquires an unbound instance; afterwards the audio
    thread passes the check and the logic thread does not. *)
Lemma acquire_then_check_witness :
  ∃ w',
    ObjectUpdateForAcquire audio_thread 1 (single_world unbound_object)
      = (Ret tt, w') ∧
    (ObjectThreadCheck hex_ptr audio_thread 1 w').1 = Ret tt ∧
    (ObjectThreadCheck hex_ptr logic_thread 1 w').1
      = Abort (Thrown (MkException (Some
          "ObjectThreadCheck failed for <Node object at 0x1>; expected Audio thread; got logic"))).
Proof.
  destruct (acquire_then_check hex_ptr audio_thread 1%N
              (single_world unbound_object) unbound_object kAudio
              eq_refl eq_refl eq_refl eq_refl eq_refl)
    as (w' & Hrun & Hself & _ & Hother).
  exists w'. split; [exact Hrun |]. split; [exact Hself |].
  exact (Hother logic_thread eq_refl).
Defined.

(** Two registries with the same instances in a different order. *)
Lemma LsObjects_order_independent_witness :
  ∃ line,
    log_sink (LsObjects true 4
                (exec (construct_all three_insts) empty_world)).2
      = [(kInfo, line)] ∧
    log_sink (LsObjects true 4
                (exec (construct_all three_insts_shuffled) empty_world)).2
      = [(kInfo, line)].
Proof.
  apply (LsObjects_order_independent 4 4
           (exec (construct_all three_insts) empty_world)
           (exec (construct_all three_insts_shuffled) empty_world)
           [9; 5; 3]%N [3; 9; 5]%N).
  - split; [solve_dllseg | reflexivity].
  - split; [solve_dllseg | reflexivity].
  - reflexivity.
  - reflexivity.
  - cbn. lia.
  - cbn. lia.
  - vm_compute. discriminate.
  - apply (bool_decide_unpack _). vm_compute. exact I.
  - reflexivity.
Defined.
